(** * Verification of the folkfriend index builder (midi.py, build_non_user_data.py)

    Shallow embedding of the contour quantizer ([CSVMidiNoteReader]),
    the pitch folder ([Note.rel_pitch]) and the alias pipeline
    ([clean_alias], [deduplicate_aliases], [gather_aliases]).

    Times: the Python code computes with floats; they are modelled here by
    exact rationals [Q].  Strings are ASCII ([String.string]). *)

From Stdlib Require Import ZArith QArith Qround Qabs Lia Lqa Bool Ascii String List Sorted Permutation.
From stdpp Require Import base gmap sets list strings.
Import ListNotations.

Open Scope Z_scope.

(* ------------------------------------------------------------------ *)
(** ** ff_config.py *)

Definition MIDI_HIGH : Z := 95.
Definition MIDI_LOW : Z := 48.
Definition MIDI_NUM : Z := MIDI_HIGH - MIDI_LOW + 1.

(** [string.ascii_letters[:MIDI_NUM]] *)
Definition MIDI_MAP : string :=
  "abcdefghijklmnopqrstuvwxyzABCDEFGHIJKLMNOPQRSTUV"%string.

(* ------------------------------------------------------------------ *)
(** ** midi.py: Note *)

Record Note := mkNote { midi_start : Z; midi_end : Z; pitch : Z }.

(** [ms_scale_factor = (60000000. / tempo) / 480000] *)
Definition ms_scale_factor (tempo : Q) : Q := ((60000000 # 1) / tempo / (480000 # 1))%Q.

(** [note.start], [note.end] and [note.duration] after [set_tempo] *)
Definition start_ms (tempo : Q) (n : Note) : Q := (ms_scale_factor tempo * inject_Z (midi_start n))%Q.
Definition end_ms (tempo : Q) (n : Note) : Q := (ms_scale_factor tempo * inject_Z (midi_end n))%Q.
Definition duration (tempo : Q) (n : Note) : Q := (end_ms tempo n - start_ms tempo n)%Q.

(** The two [while] loops of [rel_pitch].  Each loop is run with an
    explicit iteration budget; [rel_pitch] gives a budget that exceeds the
    number of iterations the loop performs ([raise_low_done] and
    [lower_high_done] below show the loop conditions are false at the end). *)
Fixpoint raise_low (fuel : nat) (p : Z) : Z :=
  match fuel with
  | O => p
  | S f => if p <=? MIDI_LOW then raise_low f (p + 12) else p
  end.

Fixpoint lower_high (fuel : nat) (p : Z) : Z :=
  match fuel with
  | O => p
  | S f => if p >=? MIDI_HIGH then lower_high f (p - 12) else p
  end.

Definition loop_budget (d : Z) : nat := S (Z.to_nat d).

(** The folded pitch and the symbol index [pitch - MIDI_LOW]. *)
Definition fold_pitch (p : Z) : Z :=
  let p1 := raise_low (loop_budget (MIDI_LOW - p)) p in
  lower_high (loop_budget (p1 - MIDI_HIGH)) p1.

Definition rel_pitch (p : Z) : Z := fold_pitch p - MIDI_LOW.

(* ------------------------------------------------------------------ *)
(** ** midi.py: CSVMidiNoteReader.to_midi_contour *)

Local Open Scope Q_scope.

(** The quantizer's loop variables. *)
Record qstate := mkQ { music_time : Q; output_time : Q; midi_contour : list Z }.

Definition qstate0 : qstate := mkQ 0 0 [].

(** Python truthiness of [start_seconds] / [end_seconds]: [None] and [0]
    are false. *)
Definition py_truthy (o : option Q) : option Q :=
  match o with
  | Some x => if Qeq_bool x 0 then None else Some x
  | None => None
  end.

(** Strict comparison [x < y] on the modelled floats. *)
Definition Qlt_bool (x y : Q) : bool := negb (Qle_bool y x).

(** [rel_duration.is_integer()] *)
Definition q_is_integer (r : Q) : bool := (Qnum r mod Zpos (Qden r) =? 0)%Z.

(** The quaver duration: [Note(0, 240, None)] after [set_tempo]. *)
Definition quaver_duration (tempo : Q) : Q := duration tempo (mkNote 0 240 0).

(** [if start_seconds and note.end < 1000 * start_seconds] *)
Definition skip_before (tempo : Q) (start_seconds : option Q) (n : Note) : bool :=
  match py_truthy start_seconds with
  | Some s => Qlt_bool (end_ms tempo n) (1000 * s)
  | None => false
  end.

(** [if end_seconds and note.start > 1000 * end_seconds] *)
Definition stop_after (tempo : Q) (end_seconds : option Q) (n : Note) : bool :=
  match py_truthy end_seconds with
  | Some e => Qlt_bool (1000 * e) (start_ms tempo n)
  | None => false
  end.

(** One iteration of the [for] loop.  [round_else] is the function used on
    the [else] side of [math.ceil if music_time > output_time else
    math.floor]; the source uses [Qfloor] there ([to_midi_contour] below).
    [None] is the [break]. *)
Definition note_step (round_else : Q -> Z) (tempo : Q) (start_seconds end_seconds : option Q)
    (st : qstate) (n : Note) : option qstate :=
  let qd := quaver_duration tempo in
  if skip_before tempo start_seconds n then
    Some (mkQ (end_ms tempo n) (end_ms tempo n) (midi_contour st))
  else if stop_after tempo end_seconds n then None
  else
    let music := music_time st + duration tempo n in
    let output := output_time st in
    if Qle_bool music output then Some (mkQ music output (midi_contour st))
    else
      let rel_duration := duration tempo n / qd in
      let sym := rel_pitch (pitch n) in
      if q_is_integer rel_duration then
        Some (mkQ music (output + duration tempo n)
                  (midi_contour st ++ repeat sym (Z.to_nat (Qfloor rel_duration))))
      else if Qlt_bool rel_duration 1 then
        Some (mkQ music (output + qd) (midi_contour st ++ [sym]))
      else
        let rounded_int :=
          if Qlt_bool output music then Qceiling rel_duration else round_else rel_duration in
        Some (mkQ music (output + inject_Z rounded_int * qd)
                  (midi_contour st ++ repeat sym (Z.to_nat rounded_int))).

Fixpoint walk (round_else : Q -> Z) (tempo : Q) (ss es : option Q)
    (st : qstate) (notes : list Note) : qstate :=
  match notes with
  | [] => st
  | n :: rest =>
      match note_step round_else tempo ss es st n with
      | None => st
      | Some st' => walk round_else tempo ss es st' rest
      end
  end.

Local Close Scope Q_scope.

(** Python indexing of a string, negative indices counting from the end;
    [None] is an [IndexError]. *)
Definition py_index (s : string) (i : Z) : option ascii :=
  let j := if i <? 0 then i + Z.of_nat (String.length s) else i in
  if j <? 0 then None else String.get (Z.to_nat j) s.

Fixpoint join_symbols (l : list Z) : option string :=
  match l with
  | [] => Some EmptyString
  | i :: rest =>
      match py_index MIDI_MAP i, join_symbols rest with
      | Some c, Some s => Some (String c s)
      | _, _ => None
      end
  end.

Definition to_midi_contour_gen (round_else : Q -> Z) (notes : list Note) (tempo : Q)
    (start_seconds end_seconds : option Q) : option string :=
  join_symbols (midi_contour (walk round_else tempo start_seconds end_seconds qstate0 notes)).

Definition to_midi_contour (notes : list Note) (tempo : Q)
    (start_seconds end_seconds : option Q) : option string :=
  to_midi_contour_gen Qfloor notes tempo start_seconds end_seconds.

(** The notes the walk visits before the [break] of the window end: the
    list is cut at the first note that is not skipped as lying before the
    window start and starts after the window end. *)
Fixpoint upto_window_end (tempo : Q) (ss es : option Q) (notes : list Note) : list Note :=
  match notes with
  | [] => []
  | n :: rest =>
      if negb (skip_before tempo ss n) && stop_after tempo es n then []
      else n :: upto_window_end tempo ss es rest
  end.

(** The loop variables after the first [k] notes (a prefix of the walk). *)
Definition walk_prefix (tempo : Q) (ss es : option Q) (notes : list Note) (k : nat) : qstate :=
  walk Qfloor tempo ss es qstate0 (firstn k notes).

(* ------------------------------------------------------------------ *)
(** ** midi.py: CSVMidiNoteReader.to_notes *)

(** A csv row with the fields [time], [type] and [note] that [to_notes]
    reads ([time] already an integer). *)
Record csv_record := mkRecord { rec_time : Z; rec_type : string; rec_note : string }.

Definition is_digit_char (c : ascii) : bool :=
  (48 <=? nat_of_ascii c)%nat && (nat_of_ascii c <=? 57)%nat.

(** [str.isdigit()] on ASCII strings: non-empty and all digits. *)
Definition py_isdigit (s : string) : bool :=
  match s with
  | EmptyString => false
  | _ => forallb is_digit_char (list_ascii_of_string s)
  end.

(** [int(s)] for a string of decimal digits. *)
Definition digits_value (s : string) : Z :=
  fold_left (fun acc c => acc * 10 + (Z.of_nat (nat_of_ascii c) - 48)) (list_ascii_of_string s) 0.

(** The reader's loop variables: the dict [active_notes] (pitch to start
    time) and the list [notes]. *)
Record tl_state := mkTL { active_notes : gmap Z Z; tl_notes : list Note }.

(** [dict.pop(key)]; [None] is the [KeyError]. *)
Definition dict_pop (m : gmap Z Z) (k : Z) : option (Z * gmap Z Z) :=
  match m !! k with
  | Some v => Some (v, delete k m)
  | None => None
  end.

(** One iteration of the [for record in self] loop; [None] is an
    exception. *)
Definition to_notes_step (st : tl_state) (r : csv_record) : option tl_state :=
  if negb (py_isdigit (rec_note r)) then Some st
  else
    let note := digits_value (rec_note r) in
    let time := rec_time r in
    if String.eqb (rec_type r) "Note_on_c" then
      match active_notes st !! note with
      | Some _ => Some st
      | None => Some (mkTL (<[note := time]> (active_notes st)) (tl_notes st))
      end
    else if String.eqb (rec_type r) "Note_off_c" then
      match active_notes st !! note with
      | None => Some st
      | Some _ =>
          match dict_pop (active_notes st) note with
          | None => None
          | Some (note_start, active') =>
              Some (mkTL active' (tl_notes st ++ [mkNote note_start time note]))
          end
      end
    else Some st.

Fixpoint to_notes_from (st : tl_state) (records : list csv_record) : option tl_state :=
  match records with
  | [] => Some st
  | r :: rest =>
      match to_notes_step st r with
      | None => None
      | Some st' => to_notes_from st' rest
      end
  end.

Definition to_notes (records : list csv_record) : option (list Note) :=
  tl_notes <$> to_notes_from (mkTL ∅ []) records.

(* ------------------------------------------------------------------ *)
(** ** build_non_user_data.py: clean_alias *)

(** [str.lower()] on ASCII. *)
Definition ascii_lower (c : ascii) : ascii :=
  let n := nat_of_ascii c in
  if (65 <=? n)%nat && (n <=? 90)%nat then ascii_of_nat (n + 32) else c.

Definition py_lower (s : string) : string :=
  string_of_list_ascii (map ascii_lower (list_ascii_of_string s)).

Definition is_lower_letter (c : ascii) : bool :=
  (97 <=? nat_of_ascii c)%nat && (nat_of_ascii c <=? 122)%nat.
Definition is_upper_letter (c : ascii) : bool :=
  (65 <=? nat_of_ascii c)%nat && (nat_of_ascii c <=? 90)%nat.

(** [NON_WORD_CHARS = re.compile('[^a-zA-Z ]')]; [.sub('', s)] keeps the
    characters of the class [a-zA-Z ]. *)
Definition is_word_char (c : ascii) : bool :=
  is_lower_letter c || is_upper_letter c || Ascii.eqb c " "%char.

Definition strip_non_word (s : string) : string :=
  string_of_list_ascii (List.filter is_word_char (list_ascii_of_string s)).

(** Python's [str.isspace] on ASCII: \t \n \x0b \x0c \r, \x1c-\x1f and space. *)
Definition is_py_space (c : ascii) : bool :=
  let n := nat_of_ascii c in
  ((9 <=? n)%nat && (n <=? 13)%nat) || ((28 <=? n)%nat && (n <=? 32)%nat).

(** [str.split()] with no separator: maximal runs of non-space characters;
    [cur] is the current word, reversed. *)
Fixpoint split_aux (s : list ascii) (cur : list ascii) : list (list ascii) :=
  match s with
  | [] => match cur with [] => [] | _ => [rev cur] end
  | c :: rest =>
      if is_py_space c then
        match cur with
        | [] => split_aux rest []
        | _ => rev cur :: split_aux rest []
        end
      else split_aux rest (c :: cur)
  end.

Definition py_split (s : string) : list string :=
  map string_of_list_ascii (split_aux (list_ascii_of_string s) []).

Definition STOP_WORDS : list string :=
  ["a"; "an"; "the"; "at"; "by"; "for"; "in"; "of"; "on";
   "to"; "up"; "and"; "as"; "but"; "or"; "nor"]%string.

Definition is_stop_word (w : string) : bool := existsb (String.eqb w) STOP_WORDS.

(** [w.endswith('s')] *)
Definition ends_with_s (w : string) : bool :=
  match rev (list_ascii_of_string w) with
  | c :: _ => Ascii.eqb c "s"%char
  | [] => false
  end.

(** [w[:-1] if w.endswith('s') else w] *)
Definition singular (w : string) : string :=
  if ends_with_s w then string_of_list_ascii (removelast (list_ascii_of_string w)) else w.

(** [w if not w == 'favorite' else 'favourite'] *)
Definition british (w : string) : string :=
  if String.eqb w "favorite" then "favourite" else w.

(** [clean_alias]: the frozenset of the normalised words. *)
Definition clean_alias (alias : string) : gset string :=
  list_to_set
    (map british
       (map singular
          (List.filter (fun w => negb (String.eqb w "") && negb (is_stop_word w))
             (py_split (strip_non_word (py_lower alias)))))).

(** Cleaning every word of a token set again and collecting the results. *)
Definition reclean (tokens : gset string) : gset string :=
  ⋃ (clean_alias <$> elements tokens).

(* ------------------------------------------------------------------ *)
(** ** build_non_user_data.py: deduplicate_aliases *)

(** Python's [sorted(xs, key=...)] is stable: an insertion sort that puts a
    new element after every element it is not smaller than. [le y x] is
    [key(y) <= key(x)]. *)
Fixpoint sort_insert {A} (le : A -> A -> bool) (x : A) (l : list A) : list A :=
  match l with
  | [] => [x]
  | y :: rest => if le y x then y :: sort_insert le x rest else x :: y :: rest
  end.

Definition py_sorted {A} (le : A -> A -> bool) (l : list A) : list A :=
  fold_left (fun acc x => sort_insert le x acc) l [].

Definition strict_subset (a b : gset string) : bool := bool_decide (a ⊂ b).

(** The first loop: keep the first alias of each cleaned set. *)
Fixpoint dedup_first_aux (seen : list (gset string)) (aliases : list string)
    : list (gset string * string) :=
  match aliases with
  | [] => []
  | alias :: rest =>
      let cleaned := clean_alias alias in
      if bool_decide (cleaned ∈ seen) then dedup_first_aux seen rest
      else (cleaned, alias) :: dedup_first_aux (cleaned :: seen) rest
  end.

Definition dedup_first (aliases : list string) : list (gset string * string) :=
  dedup_first_aux [] aliases.

(** [sorted(deduped_aliases, key=lambda c: len(c[0]))] *)
Definition by_size (p q : gset string * string) : bool := (size p.1 <=? size q.1)%nat.

(** The subset loop: the pair at position [i] is kept unless its set is a
    proper subset of the set of a pair at a position [>= i]. *)
Fixpoint remove_subsets (l : list (gset string * string)) : list string :=
  match l with
  | [] => []
  | (cleaned, alias) :: rest =>
      if existsb (fun p => strict_subset cleaned p.1) ((cleaned, alias) :: rest)
      then remove_subsets rest
      else alias :: remove_subsets rest
  end.

Definition deduplicate_aliases (aliases : list string) : list string :=
  py_sorted String.leb (remove_subsets (py_sorted by_size (dedup_first aliases))).

(* ------------------------------------------------------------------ *)
(** ** build_non_user_data.py: gather_aliases *)

Record alias_record := mkAliasRecord { ar_tune_id : string; ar_alias : string }.
Record tune_setting := mkSetting { ts_tune_id : string; ts_name : string }.

(** [int(s)] for the tune ids, which are digit strings; [None] is the
    [ValueError] for any other string. *)
Definition py_int (s : string) : option Z :=
  if py_isdigit s then Some (digits_value s) else None.

(** The sort key [int(r['tune_id'])] of every record (all keys are computed
    before sorting, so one bad id raises). *)
Fixpoint keyed_records (rs : list alias_record) : option (list (Z * alias_record)) :=
  match rs with
  | [] => Some []
  | r :: rest =>
      match py_int (ar_tune_id r), keyed_records rest with
      | Some k, Some ks => Some ((k, r) :: ks)
      | _, _ => None
      end
  end.

(** [aliases[tid]] on the [defaultdict(list)] *)
Definition dd_get (m : gmap string (list string)) (tid : string) : list string :=
  default [] (m !! tid).

(** [aliases[tid].append(alias)] *)
Definition append_alias (m : gmap string (list string)) (r : alias_record) :=
  let tid := ar_tune_id r in <[tid := dd_get m tid ++ [py_lower (ar_alias r)]]> m.

(** [if not aliases[tid] or aliases[tid][0] != alias: aliases[tid].insert(0, alias)];
    reading [aliases[tid]] creates the key. *)
Definition add_name (m : gmap string (list string)) (t : tune_setting) :=
  let tid := ts_tune_id t in
  let alias := py_lower (ts_name t) in
  match dd_get m tid with
  | [] => <[tid := [alias]]> m
  | a0 :: rest =>
      if String.eqb a0 alias then <[tid := a0 :: rest]> m
      else <[tid := alias :: a0 :: rest]> m
  end.

(** [None] is an exception: a bad tune id or the failed [assert alias_list]. *)
Definition gather_aliases (alias_records : list alias_record) (tune_data : list tune_setting)
    : option (gmap string (list string)) :=
  match keyed_records alias_records with
  | None => None
  | Some keyed =>
      let sorted_records := map snd (py_sorted (fun x y => (x.1 <=? y.1)%Z) keyed) in
      let m1 := fold_left append_alias sorted_records ∅ in
      let m2 := deduplicate_aliases <$> m1 in
      let m3 := fold_left add_name tune_data m2 in
      if forallb (fun kv => negb (bool_decide (kv.2 = []))) (map_to_list m3)
      then Some m3 else None
  end.

(* ------------------------------------------------------------------ *)
(** ** build_non_user_data.py: clean_thesession_data *)

(** A setting of tunes.json is a JSON object whose values are strings. *)

(** [del d[k]]; [None] is the [KeyError]. *)
Definition py_del (k : string) (d : gmap string string) : option (gmap string string) :=
  match d !! k with
  | Some _ => Some (delete k d)
  | None => None
  end.

(** The body of the loop of [clean_thesession_data] for [tune_data[i]]. *)
Definition clean_setting (d : gmap string string) : option (gmap string string) :=
  d ← py_del "date" d;
  d ← py_del "username" d;
  d ← py_del "name" d;
  ty ← d !! "type";
  py_del "type" (<["dance" := ty]> d).

(** The loop mutates each dict in place and returns the list; [None] is a
    [KeyError], which ends the program. *)
Definition clean_thesession_data (tune_data : list (gmap string string))
    : option (list (gmap string string)) :=
  mapM clean_setting tune_data.

(* ------------------------------------------------------------------ *)
(** ** build_non_user_data.py: generate_midi_contour (the ABC text) *)

Fixpoint lstrip_aux (l : list ascii) : list ascii :=
  match l with
  | c :: rest => if is_py_space c then lstrip_aux rest else l
  | [] => []
  end.

(** [str.strip()]. *)
Definition py_strip (s : string) : string :=
  string_of_list_ascii (rev (lstrip_aux (rev (lstrip_aux (list_ascii_of_string s))))).

(** [s.replace(c, '')] for a one-character [c]. *)
Definition py_remove_char (c : ascii) (s : string) : string :=
  string_of_list_ascii (List.filter (fun x => negb (Ascii.eqb x c)) (list_ascii_of_string s)).

(** [str.split(sep)] for a one-character [sep]: the pieces between the
    separators, empty ones included. *)
Fixpoint split_sep_aux (sep : ascii) (l : list ascii) : list (list ascii) :=
  match l with
  | [] => [[]]
  | c :: rest =>
      if Ascii.eqb c sep then [] :: split_sep_aux sep rest
      else match split_sep_aux sep rest with
           | w :: ws => (c :: w) :: ws
           | [] => [[c]]
           end
  end.

Definition py_split_sep (sep : ascii) (s : string) : list string :=
  map string_of_list_ascii (split_sep_aux sep (list_ascii_of_string s)).

(** [sep.join(l)]. *)
Fixpoint py_join (sep : string) (l : list string) : string :=
  match l with
  | [] => EmptyString
  | w :: ws =>
      match ws with
      | [] => w
      | _ => (w ++ sep ++ py_join sep ws)%string
      end
  end.

Definition newline : string := String "010"%char EmptyString.

(** The [abc] string of [generate_midi_contour] for the fields [meter],
    [mode] and [abc] of a setting. *)
Definition abc_text (meter mode abc : string) : string :=
  let abc_header := ["X:1"; "T:"; "M:" ++ py_strip meter; "L:1/8"; "K:" ++ py_strip mode]%string in
  let abc_body := py_split_sep "010"%char
                    (py_remove_char "013"%char (py_remove_char "092"%char abc)) in
  py_join newline (abc_header ++ abc_body).

(* ------------------------------------------------------------------ *)
(** ** build_non_user_data.py: build_non_user_data (the settings dict) *)

Section Assembly.

(** The external part of [generate_midi_contour]: abc2midi (skipped when
    the midi file named after the setting_id exists already), midicsv and
    [to_midi_contour]. It sees the setting_id and the ABC text. *)
Variable contour_of : string -> string -> string.

(** [generate_midi_contour((setting, midis_dir))]; [None] is a [KeyError]. *)
Definition generate_midi_contour (setting : gmap string string) : option (string * string) :=
  meter ← setting !! "meter";
  mode ← setting !! "mode";
  abc ← setting !! "abc";
  sid ← setting !! "setting_id";
  Some (sid, contour_of sid (abc_text meter mode abc)).

(** One iteration of [for setting in cleaned_thesession_data]: store the
    dict under its setting_id, then delete the key from the stored dict
    (the same object as [setting], read nowhere else afterwards). *)
Definition index_setting (settings : gmap string (gmap string string))
    (setting : gmap string string) : option (gmap string (gmap string string)) :=
  sid ← setting !! "setting_id";
  let settings := <[sid := setting]> settings in
  entry ← settings !! sid;
  entry' ← py_del "setting_id" entry;
  Some (<[sid := entry']> settings).

Fixpoint index_settings (settings : gmap string (gmap string string))
    (cleaned : list (gmap string string)) : option (gmap string (gmap string string)) :=
  match cleaned with
  | [] => Some settings
  | setting :: rest =>
      settings' ← index_setting settings setting;
      index_settings settings' rest
  end.

(** One iteration of [for setting_id, contour in contours]. *)
Definition attach_contour (settings : gmap string (gmap string string))
    (c : string * string) : option (gmap string (gmap string string)) :=
  entry ← settings !! c.1;
  Some (<[c.1 := <["contour" := c.2]> entry]> settings).

Fixpoint attach_contours (settings : gmap string (gmap string string))
    (contours : list (string * string)) : option (gmap string (gmap string string)) :=
  match contours with
  | [] => Some settings
  | c :: rest =>
      settings' ← attach_contour settings c;
      attach_contours settings' rest
  end.

(** The [settings] dict that [build_non_user_data] writes, from the loaded
    [thesession_data] ([gather_aliases] reads the data before it is cleaned
    and shares nothing with it). *)
Definition build_settings (thesession_data : list (gmap string string))
    : option (gmap string (gmap string string)) :=
  cleaned ← clean_thesession_data thesession_data;
  contours ← mapM generate_midi_contour cleaned;
  settings ← index_settings ∅ cleaned;
  attach_contours settings contours.

End Assembly.

(* ------------------------------------------------------------------ *)
(** ** Records that [to_notes] acts on *)

(** A record whose [note] field passes [isdigit] and whose [type] is
    [Note_on_c] or [Note_off_c]; [to_notes] skips every other record. *)
Definition relevant_record (r : csv_record) : bool :=
  py_isdigit (rec_note r) &&
  (String.eqb (rec_type r) "Note_on_c" || String.eqb (rec_type r) "Note_off_c").

(* ------------------------------------------------------------------ *)
(** ** Auxiliary definitions for the proofs *)

(** The order of [sorted(..., key=lambda c: len(c[0]))] as a relation. *)
Definition size_le (p q : gset string * string) : Prop := (size p.1 <= size q.1)%nat.

(** Words made of lower-case ASCII letters. *)
Definition all_lower (w : list ascii) : Prop := Forall (fun c => is_lower_letter c = true) w.

Ltac ascii_cases c := destruct c as [[] [] [] [] [] [] [] []].

(** Concrete inputs. *)
(** Three dotted quavers (360 ticks each) at the default tempo. *)
Definition dotted_quavers : list Note :=
  [mkNote 0 360 60; mkNote 360 720 62; mkNote 720 1080 64].

Definition reel_records : list alias_record :=
  [mkAliasRecord "1" "A Jig"; mkAliasRecord "1" "The Reel"]%string.
Definition reel_tunes : list tune_setting := [mkSetting "1" "The Reel"]%string.

(** The reader's invariant at time [t]: open notes started no later than
    [t], every emitted note ends no later than [t], starts no later than it
    ends, and the end times are in order. *)
Definition timeline_inv (t : Z) (st : tl_state) : Prop :=
  (forall k v, active_notes st !! k = Some v -> v <= t) /\
  Forall (fun n => midi_start n <= midi_end n <= t) (tl_notes st) /\
  StronglySorted Z.le (map midi_end (tl_notes st)).


(** The reader's invariant per pitch: an emitted note ends no later than
    the start of an open note of the same pitch, and two emitted notes of
    the same pitch do not overlap. *)
Definition same_pitch_inv (st : tl_state) : Prop :=
  (forall p v, active_notes st !! p = Some v ->
     Forall (fun n => pitch n = p -> midi_end n <= v) (tl_notes st)) /\
  StronglySorted (fun n1 n2 => pitch n1 = pitch n2 -> midi_end n1 <= midi_start n2) (tl_notes st).

(** A pitch struck twice while sounding, then released and struck again. *)
Definition repeated_records : list csv_record :=
  [mkRecord 0 "Note_on_c" "60"; mkRecord 100 "Note_on_c" "60";
   mkRecord 240 "Note_off_c" "60"; mkRecord 240 "Note_on_c" "60";
   mkRecord 480 "Note_off_c" "60"]%string.

(** Four records in chronological order: two overlapping notes. *)
Definition chronological_records : list csv_record :=
  [mkRecord 0 "Note_on_c" "60"; mkRecord 0 "Note_on_c" "64";
   mkRecord 240 "Note_off_c" "64"; mkRecord 480 "Note_off_c" "60"].

(** The dict [gather_aliases] returns for [reel_records] and [reel_tunes]. *)
Definition reel_aliases : gmap string (list string) :=
  {["1"%string := ["the reel"; "a jig"; "the reel"]%string]}.

(** A setting as it appears in tunes.json, and a data file where the
    setting_id 7 occurs twice. *)
Definition jig_setting : gmap string string :=
  list_to_map [("tune_id", "1"); ("setting_id", "7"); ("name", "The Jig"); ("type", "jig");
               ("meter", " 6/8 "); ("mode", "Dmajor"); ("abc", "ABc|d2e");
               ("date", "2001-01-01"); ("username", "x")]%string.
Definition sample_tune_data : list (gmap string string) :=
  [jig_setting; <["setting_id" := "8"]> jig_setting; <["abc" := "dcB|A2G"]> jig_setting]%string.

(** The [settings] dict for [sample_tune_data]: setting 7 is the last
    setting with that id. *)
Definition sample_settings : gmap string (gmap string string) :=
  {[ "7" := list_to_map [("tune_id", "1"); ("meter", " 6/8 "); ("mode", "Dmajor");
                          ("abc", "dcB|A2G"); ("dance", "jig");
                          ("contour", abc_text " 6/8 " "Dmajor" "dcB|A2G")];
     "8" := list_to_map [("tune_id", "1"); ("meter", " 6/8 "); ("mode", "Dmajor");
                          ("abc", "ABc|d2e"); ("dance", "jig");
                          ("contour", abc_text " 6/8 " "Dmajor" "ABc|d2e")] ]}%string.

(** A stand-in for the external contour computation. *)
Definition abc_as_contour (sid abc : string) : string := abc.

Example rel_pitch_60 : rel_pitch 60 = 12.
Proof. reflexivity. Qed.
Example contour_one_quaver : to_midi_contour [mkNote 0 240 60] 125 None None = Some "m"%string.
Proof. vm_compute. reflexivity. Qed.

(* ================================================================== *)
(** * Quantizer theorems *)

Lemma note_step_round_else_irrelevant g tempo ss es st n :
  note_step g tempo ss es st n = note_step Qfloor tempo ss es st n.
Proof.
  unfold note_step.
  destruct (skip_before tempo ss n); [reflexivity|].
  destruct (stop_after tempo es n); [reflexivity|].
  destruct (Qle_bool (music_time st + duration tempo n) (output_time st)) eqn:Hle;
    [reflexivity|].
  destruct (q_is_integer _); [reflexivity|].
  destruct (Qlt_bool _ 1); [reflexivity|].
  unfold Qlt_bool. rewrite Hle. reflexivity.
Qed.

Lemma walk_round_else_irrelevant g tempo ss es notes : forall st,
  walk g tempo ss es st notes = walk Qfloor tempo ss es st notes.
Proof.
  induction notes as [|n rest IH]; intros st; [reflexivity|].
  simpl. rewrite note_step_round_else_irrelevant.
  destruct (note_step Qfloor tempo ss es st n); [apply IH|reflexivity].
Qed.

(** C9: at the emission step [music_time > output_time] always holds, so
    the [math.floor] side of the rounding choice is never taken: replacing
    [math.floor] by any function [g] leaves the contour of every input
    unchanged. *)
Theorem floor_branch_unreachable (g : Q -> Z) (notes : list Note) (tempo : Q)
    (ss es : option Q) :
  to_midi_contour_gen g notes tempo ss es = to_midi_contour notes tempo ss es.
Proof.
  unfold to_midi_contour, to_midi_contour_gen.
  rewrite walk_round_else_irrelevant. reflexivity.
Qed.

(** C1: after three dotted quavers at tempo 125 the emitted time is 1440 ms
    and the consumed time 1080 ms: they differ by 360 ms, one and a half
    quavers (the quaver is 240 ms); each note was rounded up to two
    quavers. *)
Theorem drift_exceeds_quaver_dotted :
  Qeq (quaver_duration 125) 240 /\
  Qeq (music_time (walk_prefix 125 None None dotted_quavers 3)) 1080 /\
  Qeq (output_time (walk_prefix 125 None None dotted_quavers 3)) 1440 /\
  ~ (Qabs (output_time (walk_prefix 125 None None dotted_quavers 3)
           - music_time (walk_prefix 125 None None dotted_quavers 3))
     <= quaver_duration 125)%Q.
Proof.
  vm_compute. split; [reflexivity|]. split; [reflexivity|]. split; [reflexivity|].
  intros H. apply H. reflexivity.
Qed.

(** ** The pitch folder *)

Lemma raise_low_done : forall fuel p,
  MIDI_LOW < p + 12 * Z.of_nat fuel ->
  MIDI_LOW < raise_low fuel p /\ exists k, raise_low fuel p = p + 12 * k.
Proof.
  induction fuel as [|f IH]; intros p Hb; simpl.
  - split; [lia|]. exists 0. lia.
  - destruct (p <=? MIDI_LOW) eqn:Hp.
    + destruct (IH (p + 12)) as [Hlt [k Hk]]; [lia|].
      split; [exact Hlt|]. exists (k + 1). lia.
    + apply Z.leb_gt in Hp. split; [exact Hp|]. exists 0. lia.
Qed.

Lemma lower_high_done : forall fuel p,
  MIDI_LOW < p -> p - 12 * Z.of_nat fuel < MIDI_HIGH ->
  MIDI_LOW < lower_high fuel p < MIDI_HIGH /\ exists k, lower_high fuel p = p - 12 * k.
Proof.
  induction fuel as [|f IH]; intros p Hl Hb; simpl; unfold MIDI_LOW, MIDI_HIGH in *.
  - split; [lia|]. exists 0. lia.
  - destruct (p >=? 95) eqn:Hp.
    + apply Z.geb_le in Hp.
      destruct (IH (p - 12)) as [Hlt [k Hk]]; [lia|lia|].
      split; [exact Hlt|]. exists (k + 1). lia.
    + rewrite Z.geb_leb in Hp. apply Z.leb_gt in Hp.
      split; [lia|]. exists 0. lia.
Qed.

(** C2: for every integer pitch [p], [rel_pitch p] is [f - MIDI_LOW] for a
    folded pitch [f] strictly between [MIDI_LOW] and [MIDI_HIGH] with
    [f ≡ p (mod 12)]. *)
Theorem rel_pitch_folds_into_band (p : Z) :
  exists f, MIDI_LOW < f < MIDI_HIGH /\ f mod 12 = p mod 12 /\ rel_pitch p = f - MIDI_LOW.
Proof.
  unfold rel_pitch, fold_pitch, loop_budget.
  set (p1 := raise_low _ p).
  destruct (raise_low_done (S (Z.to_nat (MIDI_LOW - p))) p) as [H1 [k1 Hk1]].
  { unfold MIDI_LOW in *. lia. }
  fold p1 in H1, Hk1.
  destruct (lower_high_done (S (Z.to_nat (p1 - MIDI_HIGH))) p1) as [H2 [k2 Hk2]];
    [exact H1| unfold MIDI_HIGH in *; lia|].
  eexists. split; [exact H2|]. split; [|reflexivity].
  rewrite Hk2, Hk1.
  replace (p + 12 * k1 - 12 * k2) with (p + (k1 - k2) * 12) by lia.
  apply Z_mod_plus_full.
Qed.

(** ** The window end *)

Lemma note_step_no_end g tempo ss es st n :
  negb (skip_before tempo ss n) && stop_after tempo es n = false ->
  note_step g tempo ss es st n = note_step g tempo ss None st n.
Proof.
  unfold note_step. destruct (skip_before tempo ss n); [reflexivity|].
  simpl. intros H. rewrite H. reflexivity.
Qed.

(** C5 (amended): with a window end [es], the walk is the walk without a
    window end over the notes before the first note that is not skipped by
    the window-start check and whose start is strictly after [1000 * es];
    a note starting exactly at [1000 * e] is not where the walk stops. *)
Theorem window_end_strict (g : Q -> Z) (tempo : Q) (ss es : option Q) (notes : list Note) (st : qstate) :
  walk g tempo ss es st notes = walk g tempo ss None st (upto_window_end tempo ss es notes) /\
  (forall e n, Qeq (start_ms tempo n) (1000 * e) -> stop_after tempo (Some e) n = false).
Proof.
  split.
  - revert st. induction notes as [|n rest IH]; intros st; [reflexivity|].
    simpl. destruct (negb (skip_before tempo ss n) && stop_after tempo es n) eqn:Hcut.
    + simpl. unfold note_step. apply andb_prop in Hcut as [Hs Ht].
      apply negb_true_iff in Hs. rewrite Hs, Ht. reflexivity.
    + simpl. rewrite (note_step_no_end g tempo ss es st n Hcut).
      destruct (note_step g tempo ss None st n); [apply IH|reflexivity].
  - intros e n Heq. unfold stop_after, py_truthy.
    destruct (Qeq_bool e 0); [reflexivity|].
    unfold Qlt_bool. rewrite Heq. apply negb_false_iff, Qle_bool_iff, Qle_refl.
Qed.

(** A note of one quaver starting at 500 ms, with the window end at 0.5 s,
    is processed and emits its symbol. *)
Lemma window_end_inclusive_example :
  Qeq (start_ms 125 (mkNote 500 740 60)) (1000 * (1 # 2)) /\
  to_midi_contour [mkNote 500 740 60] 125 None (Some (1 # 2)%Q) = Some "m"%string.
Proof. split; vm_compute; reflexivity. Qed.

Lemma window_end_strict_witness :
  Qeq (start_ms 125 (mkNote 500 740 60)) (1000 * (1 # 2)) /\
  stop_after 125 (Some (1 # 2)%Q) (mkNote 500 740 60) = false.
Proof.
  split; [vm_compute; reflexivity|].
  apply (proj2 (window_end_strict Qfloor 125 None None [] qstate0)).
  vm_compute. reflexivity.
Defined.
Example clean_blackbird : clean_alias "The Blackbird!" = clean_alias "  blackbird".
Proof. vm_compute. reflexivity. Qed.
Example dedup_blackbird :
  deduplicate_aliases ["the blackbird"; "blackbird reel"; "blackbird"]%string = ["blackbird reel"]%string.
Proof. vm_compute. reflexivity. Qed.

(** ** gather_aliases *)

(** C3: the records "A Jig" and "The Reel" of tune 1, whose name is
    "The Reel": the deduplicated list is ["a jig"; "the reel"], the name is
    not at its head and is prepended, and it stays at position 2 as well. *)
Theorem gather_aliases_keeps_duplicate_name :
  (gather_aliases reel_records reel_tunes ≫= lookup "1"%string)
  = Some ["the reel"; "a jig"; "the reel"]%string.
Proof. vm_compute. reflexivity. Qed.

(** ** The timeline builder *)

(** C8: an [off] record for a pitch with no open [on] entry leaves the
    open-note dict and the note list unchanged, produces no note and raises
    nothing; the rest of the stream is read as if the record were absent. *)
Theorem unmatched_off_ignored (st : tl_state) (r : csv_record) (rest : list csv_record) :
  rec_type r = "Note_off_c"%string ->
  active_notes st !! digits_value (rec_note r) = None ->
  to_notes_step st r = Some st /\ to_notes_from st (r :: rest) = to_notes_from st rest.
Proof.
  intros Hty Hnone.
  assert (Hstep : to_notes_step st r = Some st).
  { unfold to_notes_step. destruct (py_isdigit (rec_note r)); [|reflexivity].
    simpl. rewrite Hty. simpl. rewrite Hnone. reflexivity. }
  split; [exact Hstep|]. simpl. rewrite Hstep. reflexivity.
Qed.

Lemma unmatched_off_ignored_witness :
  (rec_type (mkRecord 240 "Note_off_c" "60") = "Note_off_c"%string /\
   active_notes (mkTL {[62 := 0]} []) !! digits_value "60" = None) /\
  to_notes_step (mkTL {[62 := 0]} []) (mkRecord 240 "Note_off_c" "60") = Some (mkTL {[62 := 0]} []).
Proof.
  split; [split; vm_compute; reflexivity|].
  refine (proj1 (unmatched_off_ignored (mkTL {[62 := 0]} []) (mkRecord 240 "Note_off_c" "60") [] _ _));
    vm_compute; reflexivity.
Defined.

(** ** Stable sorting *)

Lemma sort_insert_In {A} (le : A -> A -> bool) x y l :
  In x (sort_insert le y l) <-> x = y \/ In x l.
Proof.
  induction l as [|z rest IH]; simpl; [split; intros H; intuition congruence|].
  destruct (le z y); simpl; [rewrite IH|]; split; intros H; intuition congruence.
Qed.

Lemma py_sorted_In {A} (le : A -> A -> bool) l x :
  In x (py_sorted le l) <-> In x l.
Proof.
  unfold py_sorted.
  enough (H : forall acc, In x (fold_left (fun acc y => sort_insert le y acc) l acc)
                          <-> In x acc \/ In x l) by (rewrite H; simpl; tauto).
  induction l as [|y rest IH]; intros acc; simpl; [tauto|].
  rewrite IH, sort_insert_In. split; intros H; intuition congruence.
Qed.

Lemma sort_insert_sorted x l :
  StronglySorted size_le l -> StronglySorted size_le (sort_insert by_size x l).
Proof.
  induction l as [|y rest IH]; intros Hs; simpl.
  - repeat constructor.
  - apply StronglySorted_inv in Hs as [Hrest Hy].
    unfold by_size. destruct (size y.1 <=? size x.1)%nat eqn:Hle.
    + apply Nat.leb_le in Hle. constructor; [apply IH, Hrest|].
      apply List.Forall_forall. intros z Hz. apply sort_insert_In in Hz as [->|Hz].
      * exact Hle.
      * rewrite List.Forall_forall in Hy. apply Hy, Hz.
    + apply Nat.leb_gt in Hle. constructor; [constructor; assumption|].
      constructor; [unfold size_le; lia|].
      apply List.Forall_forall. intros z Hz. rewrite List.Forall_forall in Hy.
      specialize (Hy z Hz). unfold size_le in *. lia.
Qed.

Lemma py_sorted_by_size_sorted l : StronglySorted size_le (py_sorted by_size l).
Proof.
  unfold py_sorted.
  enough (H : forall acc, StronglySorted size_le acc ->
            StronglySorted size_le (fold_left (fun acc y => sort_insert by_size y acc) l acc))
    by (apply H; constructor).
  induction l as [|y rest IH]; intros acc Hacc; simpl; [exact Hacc|].
  apply IH, sort_insert_sorted, Hacc.
Qed.

(** ** deduplicate_aliases *)

Lemma dedup_first_aux_pairs : forall aliases seen p,
  In p (dedup_first_aux seen aliases) -> p.1 = clean_alias p.2 /\ In p.2 aliases.
Proof.
  induction aliases as [|a rest IH]; intros seen p Hp; simpl in *; [contradiction|].
  destruct (bool_decide (clean_alias a ∈ seen)).
  - apply IH in Hp. tauto.
  - destruct Hp as [<-|Hp]; [simpl; tauto|]. apply IH in Hp. tauto.
Qed.

Lemma dedup_first_aux_covers : forall aliases seen a,
  In a aliases ->
  clean_alias a ∈ seen \/ exists p, In p (dedup_first_aux seen aliases) /\ p.1 = clean_alias a.
Proof.
  induction aliases as [|b rest IH]; intros seen a Ha; simpl in *; [contradiction|].
  destruct (bool_decide (clean_alias b ∈ seen)) eqn:Hb.
  - apply bool_decide_eq_true in Hb.
    destruct Ha as [->|Ha]; [left; exact Hb|]. apply IH, Ha.
  - destruct Ha as [->|Ha].
    + right. exists (clean_alias a, a). simpl. tauto.
    + destruct (IH (clean_alias b :: seen) a Ha) as [Hs|[p [Hp Hpa]]].
      * apply elem_of_cons in Hs as [Hs|Hs].
        -- right. exists (clean_alias b, b). simpl. split; [tauto|congruence].
        -- left. exact Hs.
      * right. exists p. simpl. tauto.
Qed.

Lemma dedup_first_covers aliases a :
  In a aliases -> exists p, In p (dedup_first aliases) /\ p.1 = clean_alias a.
Proof.
  intros Ha. destruct (dedup_first_aux_covers aliases [] a Ha) as [Hs|H]; [|exact H].
  apply elem_of_nil in Hs. contradiction.
Qed.

Lemma remove_subsets_cons c a rest :
  remove_subsets ((c, a) :: rest) =
  if existsb (fun p => strict_subset c p.1) ((c, a) :: rest)
  then remove_subsets rest else a :: remove_subsets rest.
Proof. reflexivity. Qed.

Lemma remove_subsets_from : forall l s,
  In s (remove_subsets l) -> exists p, In p l /\ p.2 = s.
Proof.
  induction l as [|[c a] rest IH]; intros s Hs; [contradiction|].
  rewrite remove_subsets_cons in Hs.
  destruct (existsb _ _).
  - destruct (IH s Hs) as [p [Hp Hps]]. exists p. simpl. tauto.
  - destruct Hs as [<-|Hs]; [exists (c, a); simpl; tauto|].
    destruct (IH s Hs) as [p [Hp Hps]]. exists p. simpl. tauto.
Qed.

(** An alias whose cleaned set is a proper subset of the set of some pair of
    a size-sorted list is dropped by the subset loop. *)
Lemma remove_subsets_drops : forall l,
  (forall p, In p l -> p.1 = clean_alias p.2) ->
  StronglySorted size_le l ->
  forall B s, In B l -> clean_alias s ⊂ B.1 -> ~ In s (remove_subsets l).
Proof.
  induction l as [|[c a] rest IH]; intros Hcl Hs B s HB Hsub; [simpl; tauto|].
  apply StronglySorted_inv in Hs as [Hrest Hca].
  assert (Hcl' : forall p, In p rest -> p.1 = clean_alias p.2) by (intros; apply Hcl; simpl; tauto).
  assert (Hnot : ~ In s (remove_subsets rest)).
  { destruct HB as [<-|HB]; [|exact (IH Hcl' Hrest B s HB Hsub)].
    intros Hin. apply remove_subsets_from in Hin as [p [Hp <-]].
    rewrite List.Forall_forall in Hca. specialize (Hca p Hp). unfold size_le in Hca.
    rewrite <- (Hcl' p Hp) in Hsub. apply subset_size in Hsub. simpl in Hsub, Hca. lia. }
  assert (Hc : c = clean_alias a) by exact (Hcl (c, a) (or_introl eq_refl)).
  rewrite remove_subsets_cons.
  destruct (existsb (fun p => strict_subset c p.1) ((c, a) :: rest)) eqn:Hex; [exact Hnot|].
  intros [<-|Hin]; [|contradiction].
  assert (Htrue : existsb (fun p => strict_subset c p.1) ((c, a) :: rest) = true).
  { apply existsb_exists. exists B. split; [exact HB|].
    unfold strict_subset. apply bool_decide_eq_true. rewrite Hc. exact Hsub. }
  rewrite Htrue in Hex. discriminate.
Qed.

(** A pair whose set has the largest size in the list is kept. *)
Lemma remove_subsets_keeps_max : forall l M,
  In M l -> (forall p, In p l -> (size p.1 <= size M.1)%nat) -> In M.2 (remove_subsets l).
Proof.
  induction l as [|[c a] rest IH]; intros M HM Hmax; simpl in HM; [contradiction|].
  assert (Hmax' : forall p, In p rest -> (size p.1 <= size M.1)%nat)
    by (intros; apply Hmax; simpl; tauto).
  rewrite remove_subsets_cons. destruct HM as [<-|HM].
  - destruct (existsb (fun p => strict_subset c p.1) ((c, a) :: rest)) eqn:Hex; [|simpl; tauto].
    exfalso. apply existsb_exists in Hex as [p [Hp Hsub]].
    unfold strict_subset in Hsub. apply bool_decide_eq_true, subset_size in Hsub.
    specialize (Hmax p Hp). simpl in Hmax. lia.
  - destruct (existsb _ _); [|right]; apply IH; assumption.
Qed.

Lemma max_by_size (l : list (gset string * string)) :
  l <> [] -> exists M, In M l /\ forall p, In p l -> (size p.1 <= size M.1)%nat.
Proof.
  induction l as [|x rest IH]; intros Hne; [congruence|].
  destruct rest as [|y rest'].
  - exists x. simpl. split; [tauto|]. intros p [<-|[]]. lia.
  - destruct IH as [M [HM Hmax]]; [discriminate|].
    destruct (Nat.le_ge_cases (size x.1) (size M.1)) as [Hle|Hge].
    + exists M. split; [simpl; tauto|]. intros p [<-|Hp]; [exact Hle|apply Hmax, Hp].
    + exists x. split; [simpl; tauto|]. intros p [<-|Hp]; [lia|].
      specialize (Hmax p Hp). lia.
Qed.

Lemma deduplicate_aliases_In aliases s :
  In s (deduplicate_aliases aliases) <->
  In s (remove_subsets (py_sorted by_size (dedup_first aliases))).
Proof. unfold deduplicate_aliases. apply py_sorted_In. Qed.

Lemma sorted_pairs_clean aliases p :
  In p (py_sorted by_size (dedup_first aliases)) -> p.1 = clean_alias p.2.
Proof. rewrite py_sorted_In. intros Hp. apply (dedup_first_aux_pairs aliases [] p Hp). Qed.

(** C4: if two pairs survive the equal-set pass and the first's cleaned set
    is a proper subset of the second's, the first alias is not in the
    result. *)
Theorem subset_alias_dropped (aliases : list string) (A B : gset string * string) :
  In A (dedup_first aliases) -> In B (dedup_first aliases) -> A.1 ⊂ B.1 ->
  ~ In A.2 (deduplicate_aliases aliases).
Proof.
  intros HA HB Hsub. rewrite deduplicate_aliases_In.
  apply (remove_subsets_drops _ (sorted_pairs_clean aliases)
           (py_sorted_by_size_sorted _) B).
  - apply py_sorted_In, HB.
  - rewrite <- (proj1 (dedup_first_aux_pairs aliases [] A HA)). exact Hsub.
Qed.

Lemma subset_alias_dropped_witness :
  (In (clean_alias "blackbird", "blackbird") (dedup_first ["blackbird"; "blackbird reel"]) /\
   In (clean_alias "blackbird reel", "blackbird reel") (dedup_first ["blackbird"; "blackbird reel"]) /\
   clean_alias "blackbird" ⊂ clean_alias "blackbird reel") /\
  ~ In "blackbird"%string (deduplicate_aliases ["blackbird"; "blackbird reel"]).
Proof.
  assert (H1 : In (clean_alias "blackbird", "blackbird"%string)
                  (dedup_first ["blackbird"; "blackbird reel"])) by (vm_compute; left; reflexivity).
  assert (H2 : In (clean_alias "blackbird reel", "blackbird reel"%string)
                  (dedup_first ["blackbird"; "blackbird reel"])) by (vm_compute; right; left; reflexivity).
  assert (H3 : clean_alias "blackbird" ⊂ clean_alias "blackbird reel")
    by (apply (bool_decide_eq_true_1 _); vm_compute; reflexivity).
  split; [split; [exact H1|split; [exact H2|exact H3]]|].
  exact (subset_alias_dropped _ _ _ H1 H2 H3).
Defined.

Lemma dedup_first_nonempty aliases : aliases <> [] -> dedup_first aliases <> [].
Proof.
  destruct aliases as [|a rest]; [congruence|]. intros _.
  unfold dedup_first. cbn [dedup_first_aux].
  rewrite bool_decide_eq_false_2 by apply not_elem_of_nil. discriminate.
Qed.

(** C10: a non-empty alias list gives a non-empty result, and a surviving
    pair whose cleaned set has the largest size is always kept. *)
Theorem deduplicate_aliases_nonempty (aliases : list string) :
  aliases <> [] ->
  deduplicate_aliases aliases <> [] /\
  forall A, In A (dedup_first aliases) ->
    (forall B, In B (dedup_first aliases) -> (size B.1 <= size A.1)%nat) ->
    In A.2 (deduplicate_aliases aliases).
Proof.
  intros Hne.
  assert (Hkeep : forall A, In A (dedup_first aliases) ->
            (forall B, In B (dedup_first aliases) -> (size B.1 <= size A.1)%nat) ->
            In A.2 (deduplicate_aliases aliases)).
  { intros A HA Hmax. apply deduplicate_aliases_In, remove_subsets_keeps_max.
    - apply py_sorted_In, HA.
    - intros p Hp. apply py_sorted_In in Hp. apply Hmax, Hp. }
  split; [|exact Hkeep].
  destruct (max_by_size _ (dedup_first_nonempty aliases Hne)) as [M [HM Hmax]].
  intros Hnil. pose proof (Hkeep M HM Hmax) as Hin. rewrite Hnil in Hin. exact Hin.
Qed.

Lemma deduplicate_aliases_nonempty_witness :
  (["the reel"; "reel"]%string <> []) /\
  deduplicate_aliases ["the reel"; "reel"]%string <> [].
Proof.
  split; [discriminate|].
  exact (proj1 (deduplicate_aliases_nonempty ["the reel"; "reel"]%string ltac:(discriminate))).
Defined.

(** C6 (amended): an alias whose cleaned set is empty is kept only when no
    input alias has a non-empty cleaned set; as soon as one has, no alias
    of the result has an empty cleaned set. *)
Theorem empty_alias_dropped_if_some_nonempty (aliases : list string) :
  (exists a, In a aliases /\ clean_alias a <> ∅) ->
  forall s, In s (deduplicate_aliases aliases) -> clean_alias s <> ∅.
Proof.
  intros [a [Ha Hne]] s Hs Hempty.
  destruct (dedup_first_covers aliases a Ha) as [B [HB HBa]].
  apply deduplicate_aliases_In in Hs. revert Hs.
  apply (remove_subsets_drops _ (sorted_pairs_clean aliases)
           (py_sorted_by_size_sorted _) B); [apply py_sorted_In, HB|].
  rewrite Hempty, HBa. set_solver.
Qed.

Lemma empty_alias_dropped_if_some_nonempty_witness :
  (In "reel"%string ["the"; "reel"]%string /\ clean_alias "reel" <> ∅) /\
  ~ In "the"%string (deduplicate_aliases ["the"; "reel"]%string).
Proof.
  assert (Hreel : clean_alias "reel" <> ∅).
  { intros H. assert (Hin : "reel"%string ∈ clean_alias "reel")
      by (apply (bool_decide_eq_true_1 _); vm_compute; reflexivity).
    rewrite H in Hin. set_solver. }
  assert (Hthe : clean_alias "the" = ∅) by (vm_compute; reflexivity).
  split; [split; [simpl; tauto|exact Hreel]|].
  intros Hin. refine (empty_alias_dropped_if_some_nonempty ["the"; "reel"]%string _ "the"%string Hin Hthe).
  exists "reel"%string. split; [simpl; tauto|exact Hreel].
Defined.

(** The single alias "the" (only a stop word) is kept although its cleaned
    set is empty. *)
Lemma empty_alias_kept_alone :
  clean_alias "the" = ∅ /\ deduplicate_aliases ["the"]%string = ["the"]%string.
Proof. split; vm_compute; reflexivity. Qed.

(** ** clean_alias *)

Lemma ascii_lower_not_upper c : is_upper_letter (ascii_lower c) = false.
Proof. ascii_cases c; reflexivity. Qed.

Lemma ascii_lower_lower c : is_lower_letter c = true -> ascii_lower c = c.
Proof. ascii_cases c; intros H; (reflexivity || discriminate H). Qed.

Lemma lower_not_space c : is_lower_letter c = true -> is_py_space c = false.
Proof. ascii_cases c; intros H; (reflexivity || discriminate H). Qed.

Lemma lower_word_char c : is_lower_letter c = true -> is_word_char c = true.
Proof. ascii_cases c; intros H; (reflexivity || discriminate H). Qed.

Lemma word_char_not_upper c :
  is_word_char c = true -> is_upper_letter c = false -> is_lower_letter c = true \/ c = " "%char.
Proof. ascii_cases c; intros H1 H2; (discriminate H1 || discriminate H2 || tauto). Qed.

Lemma strip_lower_chars alias :
  Forall (fun c => is_lower_letter c = true \/ c = " "%char)
         (list_ascii_of_string (strip_non_word (py_lower alias))).
Proof.
  unfold strip_non_word, py_lower.
  rewrite !list_ascii_of_string_of_list_ascii.
  apply List.Forall_forall. intros c Hc. apply filter_In in Hc as [Hm Hw].
  apply in_map_iff in Hm as [d [<- _]].
  apply word_char_not_upper; [exact Hw|apply ascii_lower_not_upper].
Qed.

Lemma split_aux_words : forall s cur,
  Forall (fun c => is_lower_letter c = true \/ c = " "%char) s -> all_lower cur ->
  forall w, In w (split_aux s cur) -> all_lower w.
Proof.
  induction s as [|c rest IH]; intros cur Hs Hcur w Hw; simpl in Hw.
  - destruct cur; [contradiction|]. destruct Hw as [<-|[]]. apply Forall_rev, Hcur.
  - apply Forall_cons_iff in Hs as [Hc Hrest].
    destruct (is_py_space c) eqn:Hsp.
    + destruct cur as [|d cur'].
      * exact (IH [] Hrest (List.Forall_nil _) w Hw).
      * destruct Hw as [<-|Hw]; [apply Forall_rev, Hcur|].
        exact (IH [] Hrest (List.Forall_nil _) w Hw).
    + apply (IH (c :: cur) Hrest); [|exact Hw]. constructor; [|exact Hcur].
      destruct Hc as [Hc| ->]; [exact Hc|discriminate Hsp].
Qed.

Lemma removelast_Forall {A} (P : A -> Prop) l : Forall P l -> Forall P (removelast l).
Proof.
  induction l as [|x rest IH]; intros H; [constructor|].
  apply Forall_cons_iff in H as [Hx Hr]. simpl.
  destruct rest; [constructor|]. constructor; [exact Hx|apply IH, Hr].
Qed.

(** Every word of a cleaned set is made of lower-case letters and is not
    the American spelling. *)
Lemma clean_alias_tokens alias w :
  w ∈ clean_alias alias -> all_lower (list_ascii_of_string w) /\ w <> "favorite"%string.
Proof.
  unfold clean_alias. rewrite elem_of_list_to_set, list_elem_of_In.
  intros Hw. apply in_map_iff in Hw as [v [<- Hv]].
  apply in_map_iff in Hv as [u [<- Hu]].
  apply filter_In in Hu as [Hu _].
  unfold py_split in Hu. apply in_map_iff in Hu as [x [<- Hx]].
  pose proof (split_aux_words _ [] (strip_lower_chars alias) (List.Forall_nil _) x Hx) as Hlow.
  assert (Hu : all_lower (list_ascii_of_string (singular (string_of_list_ascii x)))).
  { unfold singular. destruct (ends_with_s _).
    - rewrite !list_ascii_of_string_of_list_ascii. apply removelast_Forall, Hlow.
    - rewrite list_ascii_of_string_of_list_ascii. exact Hlow. }
  unfold british. destruct (String.eqb _ "favorite") eqn:Hfav.
  - split; [repeat constructor|discriminate].
  - split; [exact Hu|]. apply String.eqb_neq, Hfav.
Qed.

Lemma split_aux_no_space : forall l cur,
  Forall (fun c => is_py_space c = false) l -> (cur <> [] \/ l <> []) ->
  split_aux l cur = [rev cur ++ l].
Proof.
  induction l as [|c rest IH]; intros cur Hl Hne; simpl.
  - destruct cur as [|d cur']; [destruct Hne; congruence|]. rewrite app_nil_r. reflexivity.
  - apply Forall_cons_iff in Hl as [Hc Hrest]. rewrite Hc.
    rewrite (IH (c :: cur) Hrest) by (left; discriminate).
    simpl. rewrite <- app_assoc. reflexivity.
Qed.

Lemma filter_all_true {A} (f : A -> bool) l : Forall (fun x => f x = true) l -> List.filter f l = l.
Proof.
  induction l as [|x rest IH]; intros H; [reflexivity|].
  apply Forall_cons_iff in H as [Hx Hr]. simpl. rewrite Hx, IH by exact Hr. reflexivity.
Qed.

(** A plain word cleans to itself. *)
Lemma clean_plain_word w :
  all_lower (list_ascii_of_string w) -> w <> ""%string -> is_stop_word w = false ->
  ends_with_s w = false -> w <> "favorite"%string ->
  clean_alias w = {[w]}.
Proof.
  intros Hlow Hne Hstop Hs Hfav.
  assert (Hl : py_lower w = w).
  { unfold py_lower. rewrite map_ext_in with (g := fun c => c).
    - rewrite map_id. apply string_of_list_ascii_of_string.
    - intros c Hc. apply ascii_lower_lower. unfold all_lower in Hlow; rewrite List.Forall_forall in Hlow. apply Hlow, Hc. }
  assert (Hst : strip_non_word w = w).
  { unfold strip_non_word. rewrite filter_all_true; [apply string_of_list_ascii_of_string|].
    eapply List.Forall_impl; [|exact Hlow]. intros c Hc. apply lower_word_char, Hc. }
  assert (Hsp : py_split w = [w]).
  { unfold py_split. rewrite split_aux_no_space.
    - simpl. rewrite string_of_list_ascii_of_string. reflexivity.
    - eapply List.Forall_impl; [|exact Hlow]. intros c Hc. apply lower_not_space, Hc.
    - right. intros Hnil. apply Hne. rewrite <- (string_of_list_ascii_of_string w), Hnil.
      reflexivity. }
  unfold clean_alias. rewrite Hl, Hst, Hsp. simpl.
  apply String.eqb_neq in Hne. rewrite Hne, Hstop. simpl.
  unfold singular, british. rewrite Hs. apply String.eqb_neq in Hfav. rewrite Hfav.
  set_solver.
Qed.

(** C7 (amended): when no word of [clean_alias alias] is empty, a stop word
    or ends in "s", cleaning each word again gives back the same set. *)
Theorem clean_alias_reclean_plain (alias : string) :
  (forall w, w ∈ clean_alias alias ->
     w <> ""%string /\ is_stop_word w = false /\ ends_with_s w = false) ->
  reclean (clean_alias alias) = clean_alias alias.
Proof.
  intros Hplain.
  assert (Hword : forall w, w ∈ clean_alias alias -> clean_alias w = {[w]}).
  { intros w Hw. destruct (Hplain w Hw) as [Hne [Hstop Hs]].
    destruct (clean_alias_tokens alias w Hw) as [Hlow Hfav].
    apply clean_plain_word; assumption. }
  unfold reclean. apply set_eq. intros x. rewrite elem_of_union_list. split.
  - intros [X [HX Hx]]. apply list_elem_of_fmap in HX as [w [-> Hw]].
    rewrite elem_of_elements in Hw. rewrite (Hword w Hw) in Hx. set_solver.
  - intros Hx. exists (clean_alias x). split.
    + apply list_elem_of_fmap. exists x. rewrite elem_of_elements. tauto.
    + rewrite (Hword x Hx). set_solver.
Qed.

Lemma clean_alias_reclean_plain_witness :
  reclean (clean_alias "Blackbird Reel") = clean_alias "Blackbird Reel".
Proof.
  apply clean_alias_reclean_plain.
  intros w Hw.
  assert (Hset : clean_alias "Blackbird Reel" = {["blackbird"; "reel"]}%string ∪ ∅)
    by (vm_compute; reflexivity).
  rewrite Hset in Hw.
  assert (Hcases : w = "blackbird"%string \/ w = "reel"%string) by set_solver.
  destruct Hcases as [-> | ->]; repeat split; (discriminate || reflexivity).
Defined.

(** "bass" cleans to \{"bas"\}, and cleaning "bas" again strips another
    "s": \{"ba"\}. *)
Lemma reclean_bass :
  clean_alias "bass" = {["bas"]}%string /\ reclean (clean_alias "bass") = {["ba"]}%string /\
  reclean (clean_alias "bass") <> clean_alias "bass".
Proof.
  assert (H1 : clean_alias "bass" = {["bas"]}%string) by (vm_compute; reflexivity).
  assert (H2 : reclean (clean_alias "bass") = {["ba"]}%string) by (vm_compute; reflexivity).
  split; [exact H1|]. split; [exact H2|].
  rewrite H2, H1. intros Heq.
  assert (Hin : "ba"%string ∈ ({["bas"]} : gset string)) by (rewrite <- Heq; set_solver).
  apply elem_of_singleton in Hin. discriminate.
Qed.

(* ================================================================== *)
(** * Further properties of the code *)

(** ** to_notes *)

Lemma to_notes_step_total st r : exists st', to_notes_step st r = Some st'.
Proof.
  unfold to_notes_step.
  destruct (negb (py_isdigit (rec_note r))); [eauto|].
  destruct (String.eqb (rec_type r) "Note_on_c").
  - destruct (active_notes st !! _); eauto.
  - destruct (String.eqb (rec_type r) "Note_off_c"); [|eauto].
    destruct (active_notes st !! digits_value (rec_note r)) eqn:Hk; [|eauto].
    unfold dict_pop. rewrite Hk. eauto.
Qed.

Lemma to_notes_from_total : forall records st, exists st', to_notes_from st records = Some st'.
Proof.
  induction records as [|r rest IH]; intros st; simpl; [eauto|].
  destruct (to_notes_step_total st r) as [st' ->]. apply IH.
Qed.

(** [to_notes] never raises: the [active_notes.pop] is only reached for a
    pitch that is open. *)
Theorem to_notes_never_raises (records : list csv_record) :
  exists notes, to_notes records = Some notes.
Proof.
  unfold to_notes. destruct (to_notes_from_total records (mkTL ∅ [])) as [st ->].
  eexists. reflexivity.
Qed.

Lemma to_notes_step_irrelevant st r : relevant_record r = false -> to_notes_step st r = Some st.
Proof.
  unfold relevant_record, to_notes_step. intros H.
  destruct (py_isdigit (rec_note r)); [|reflexivity]. simpl in *.
  destruct (String.eqb (rec_type r) "Note_on_c"); [discriminate|].
  destruct (String.eqb (rec_type r) "Note_off_c"); [discriminate|reflexivity].
Qed.

(** Records with a non-numeric note field or another event type play no
    part: dropping them leaves the notes unchanged. *)
Theorem to_notes_filter_relevant (records : list csv_record) :
  to_notes (List.filter relevant_record records) = to_notes records.
Proof.
  unfold to_notes. generalize (mkTL ∅ []).
  induction records as [|r rest IH]; intros st; [reflexivity|].
  simpl. destruct (relevant_record r) eqn:Hr.
  - simpl. destruct (to_notes_step st r); [apply IH|reflexivity].
  - rewrite (to_notes_step_irrelevant st r Hr). apply IH.
Qed.

Lemma StronglySorted_snoc (l : list Z) x :
  StronglySorted Z.le l -> Forall (fun y => y <= x) l -> StronglySorted Z.le (l ++ [x]).
Proof.
  induction l as [|y rest IH]; intros Hs Hx; simpl.
  - repeat constructor.
  - apply StronglySorted_inv in Hs as [Hrest Hy]. apply Forall_cons_iff in Hx as [Hyx Hx].
    constructor; [apply IH; assumption|].
    apply Forall_app; split; [exact Hy|]. constructor; [exact Hyx|constructor].
Qed.

Lemma timeline_inv_mono t t' st : t <= t' -> timeline_inv t st -> timeline_inv t' st.
Proof.
  intros Ht [Ha [Hn Hs]]. split; [intros k v Hk; specialize (Ha k v Hk); lia|].
  split; [|exact Hs].
  eapply List.Forall_impl; [|exact Hn]. simpl. intros n Hn'. lia.
Qed.

Lemma to_notes_step_inv t st r st' :
  t <= rec_time r -> timeline_inv t st -> to_notes_step st r = Some st' ->
  timeline_inv (rec_time r) st'.
Proof.
  intros Ht Hinv Hstep. pose proof (timeline_inv_mono _ _ _ Ht Hinv) as Hinv'.
  unfold to_notes_step in Hstep.
  destruct (negb (py_isdigit (rec_note r))); [injection Hstep as <-; exact Hinv'|].
  destruct (String.eqb (rec_type r) "Note_on_c").
  - destruct (active_notes st !! _); injection Hstep as <-; [exact Hinv'|].
    destruct Hinv' as [Ha [Hn Hs]]. split; [|split; assumption].
    simpl. intros k v Hk. destruct (decide (k = digits_value (rec_note r))) as [->|Hne].
    + rewrite lookup_insert_eq in Hk. injection Hk as <-. lia.
    + rewrite lookup_insert_ne in Hk by congruence. apply (Ha k v Hk).
  - destruct (String.eqb (rec_type r) "Note_off_c"); [|injection Hstep as <-; exact Hinv'].
    destruct (active_notes st !! digits_value (rec_note r)) as [v|] eqn:Hk;
      [|injection Hstep as <-; exact Hinv'].
    unfold dict_pop in Hstep. rewrite Hk in Hstep. injection Hstep as <-.
    destruct Hinv' as [Ha [Hn Hs]]. pose proof (Ha _ _ Hk) as Hv. simpl. split; [|split].
    + intros k w Hkw. destruct (decide (k = digits_value (rec_note r))) as [->|Hne].
      * simpl in Hkw. rewrite lookup_delete_eq in Hkw. discriminate.
      * simpl in Hkw. rewrite lookup_delete_ne in Hkw by congruence. apply (Ha k w Hkw).
    + apply Forall_app. split; [exact Hn|]. constructor; [simpl; lia|constructor].
    + cbn [tl_notes]. rewrite List.map_app. simpl. apply StronglySorted_snoc; [exact Hs|].
      apply List.Forall_forall. intros y Hy. apply in_map_iff in Hy as [n [<- Hn']].
      rewrite List.Forall_forall in Hn. specialize (Hn n Hn'). lia.
Qed.

Lemma to_notes_from_inv : forall records t st st',
  timeline_inv t st -> Forall (fun r => t <= rec_time r) records ->
  StronglySorted Z.le (map rec_time records) ->
  to_notes_from st records = Some st' ->
  exists t', timeline_inv t' st'.
Proof.
  induction records as [|r rest IH]; intros t st st' Hinv Ht Hs Hrun; simpl in Hrun.
  - injection Hrun as <-. eauto.
  - apply Forall_cons_iff in Ht as [Hr Hrest]. simpl in Hs.
    apply StronglySorted_inv in Hs as [Hs Hle].
    destruct (to_notes_step st r) as [st1|] eqn:Hstep; [|discriminate].
    apply (IH (rec_time r) st1 st'); [eapply to_notes_step_inv; eassumption| |exact Hs|exact Hrun].
    apply List.Forall_forall. intros x Hx. rewrite List.Forall_forall in Hle.
    apply Hle, in_map, Hx.
Qed.

(** For records in chronological order, every note starts no later than it
    ends, and notes come out in order of their end times. *)
Theorem to_notes_chronological (records : list csv_record) (notes : list Note) :
  StronglySorted Z.le (map rec_time records) ->
  to_notes records = Some notes ->
  Forall (fun n => midi_start n <= midi_end n) notes /\
  StronglySorted Z.le (map midi_end notes).
Proof.
  intros Hs Hrun. unfold to_notes in Hrun.
  destruct (to_notes_from (mkTL ∅ []) records) as [st|] eqn:Hst; [|discriminate].
  injection Hrun as <-.
  set (t0 := fold_right Z.min 0 (map rec_time records)).
  assert (Ht0 : Forall (fun r => t0 <= rec_time r) records).
  { apply List.Forall_forall. intros r Hr. unfold t0. clear Hs Hst.
    induction records as [|r' rest IH]; [contradiction|].
    destruct Hr as [<-|Hr]; simpl; [lia|]. specialize (IH Hr). lia. }
  destruct (to_notes_from_inv records t0 (mkTL ∅ []) st (ltac:(split; [intros k v Hk; cbn [active_notes] in Hk; rewrite lookup_empty in Hk; discriminate|split; constructor])) Ht0 Hs Hst)
    as [t' [_ [Hn Hsorted]]].
  split; [|exact Hsorted].
  eapply List.Forall_impl; [|exact Hn]. simpl. intros n Hn'. lia.
Qed.

Lemma to_notes_chronological_witness :
  StronglySorted Z.le (map rec_time chronological_records) /\
  to_notes chronological_records = Some [mkNote 0 240 64; mkNote 0 480 60] /\
  Forall (fun n => midi_start n <= midi_end n) [mkNote 0 240 64; mkNote 0 480 60].
Proof.
  assert (Hs : StronglySorted Z.le (map rec_time chronological_records)).
  { simpl. repeat constructor; simpl; lia. }
  assert (Hrun : to_notes chronological_records = Some [mkNote 0 240 64; mkNote 0 480 60])
    by (vm_compute; reflexivity).
  split; [exact Hs|]. split; [exact Hrun|].
  exact (proj1 (to_notes_chronological _ _ Hs Hrun)).
Defined.

Lemma StronglySorted_app_single {A} (R : A -> A -> Prop) (l : list A) x :
  StronglySorted R l -> Forall (fun y => R y x) l -> StronglySorted R (l ++ [x]).
Proof.
  induction l as [|y rest IH]; intros Hs Hx; simpl.
  - repeat constructor.
  - apply StronglySorted_inv in Hs as [Hrest Hy]. apply Forall_cons_iff in Hx as [Hyx Hx].
    constructor; [apply IH; assumption|].
    apply Forall_app; split; [exact Hy|]. constructor; [exact Hyx|constructor].
Qed.

Lemma to_notes_step_same_pitch t st r st' :
  t <= rec_time r -> timeline_inv t st -> same_pitch_inv st ->
  to_notes_step st r = Some st' -> same_pitch_inv st'.
Proof.
  intros Ht Hinv Hsp Hstep. destruct Hinv as [_ [Hn _]]. destruct Hsp as [Hopen Hsorted].
  unfold to_notes_step in Hstep.
  destruct (negb (py_isdigit (rec_note r))); [injection Hstep as <-; split; assumption|].
  destruct (String.eqb (rec_type r) "Note_on_c").
  - destruct (active_notes st !! _) eqn:Hk; injection Hstep as <-; [split; assumption|].
    split; [|exact Hsorted]. cbn [active_notes tl_notes]. intros p v Hp.
    destruct (decide (p = digits_value (rec_note r))) as [->|Hne].
    + rewrite lookup_insert_eq in Hp. injection Hp as <-.
      eapply List.Forall_impl; [|exact Hn]. simpl. intros n Hn' _. lia.
    + rewrite lookup_insert_ne in Hp by congruence. exact (Hopen p v Hp).
  - destruct (String.eqb (rec_type r) "Note_off_c"); [|injection Hstep as <-; split; assumption].
    destruct (active_notes st !! digits_value (rec_note r)) as [v|] eqn:Hk;
      [|injection Hstep as <-; split; assumption].
    unfold dict_pop in Hstep. rewrite Hk in Hstep. injection Hstep as <-.
    cbn [active_notes tl_notes]. split.
    + intros p w Hp. cbn [active_notes] in Hp.
      destruct (decide (p = digits_value (rec_note r))) as [->|Hne].
      * rewrite lookup_delete_eq in Hp. discriminate.
      * rewrite lookup_delete_ne in Hp by congruence.
        apply Forall_app. split; [exact (Hopen p w Hp)|].
        constructor; [simpl; intros Heq; congruence|constructor].
    + apply StronglySorted_app_single; [exact Hsorted|]. simpl.
      exact (Hopen _ _ Hk).
Qed.

Lemma to_notes_from_same_pitch : forall records t st st',
  timeline_inv t st -> same_pitch_inv st -> Forall (fun r => t <= rec_time r) records ->
  StronglySorted Z.le (map rec_time records) ->
  to_notes_from st records = Some st' -> same_pitch_inv st'.
Proof.
  induction records as [|r rest IH]; intros t st st' Hinv Hsp Ht Hs Hrun; simpl in Hrun.
  - injection Hrun as <-. exact Hsp.
  - apply Forall_cons_iff in Ht as [Hr Hrest]. simpl in Hs.
    apply StronglySorted_inv in Hs as [Hs Hle].
    destruct (to_notes_step st r) as [st1|] eqn:Hstep; [|discriminate].
    apply (IH (rec_time r) st1 st');
      [eapply to_notes_step_inv; eassumption|eapply to_notes_step_same_pitch; eassumption
      | |exact Hs|exact Hrun].
    apply List.Forall_forall. intros x Hx. rewrite List.Forall_forall in Hle.
    apply Hle, in_map, Hx.
Qed.

(** For records in chronological order, two notes of the same pitch that
    [to_notes] returns never overlap: the earlier one in the list ends no
    later than the later one starts (a [Note_on_c] for a sounding pitch is
    ignored, so a pitch has at most one open note). *)
Theorem to_notes_same_pitch_disjoint (records : list csv_record) (notes : list Note) :
  StronglySorted Z.le (map rec_time records) ->
  to_notes records = Some notes ->
  StronglySorted (fun n1 n2 => pitch n1 = pitch n2 -> midi_end n1 <= midi_start n2) notes.
Proof.
  intros Hs Hrun. unfold to_notes in Hrun.
  destruct (to_notes_from (mkTL ∅ []) records) as [st|] eqn:Hst; [|discriminate].
  injection Hrun as <-.
  set (t0 := fold_right Z.min 0 (map rec_time records)).
  assert (Ht0 : Forall (fun r => t0 <= rec_time r) records).
  { apply List.Forall_forall. intros r Hr. unfold t0. clear Hs Hst.
    induction records as [|r' rest IH]; [contradiction|].
    destruct Hr as [<-|Hr]; simpl; [lia|]. specialize (IH Hr). lia. }
  assert (Hinv0 : timeline_inv t0 (mkTL ∅ [])).
  { split; [intros k v Hk; cbn [active_notes] in Hk; rewrite lookup_empty in Hk; discriminate|].
    split; constructor. }
  assert (Hsp0 : same_pitch_inv (mkTL ∅ [])).
  { split; [intros p v Hp; cbn [active_notes] in Hp; rewrite lookup_empty in Hp; discriminate|].
    constructor. }
  exact (proj2 (to_notes_from_same_pitch records t0 _ st Hinv0 Hsp0 Ht0 Hs Hst)).
Qed.

Lemma to_notes_same_pitch_disjoint_witness :
  StronglySorted Z.le (map rec_time repeated_records) /\
  to_notes repeated_records = Some [mkNote 0 240 60; mkNote 240 480 60] /\
  StronglySorted (fun n1 n2 => pitch n1 = pitch n2 -> midi_end n1 <= midi_start n2)
    [mkNote 0 240 60; mkNote 240 480 60].
Proof.
  assert (Hs : StronglySorted Z.le (map rec_time repeated_records)).
  { simpl. repeat constructor; simpl; lia. }
  assert (Hrun : to_notes repeated_records = Some [mkNote 0 240 60; mkNote 240 480 60])
    by (vm_compute; reflexivity).
  split; [exact Hs|]. split; [exact Hrun|].
  exact (to_notes_same_pitch_disjoint _ _ Hs Hrun).
Defined.

(* ------------------------------------------------------------------ *)
(** ** The quantizer: music time, output time and emitted symbols *)

Section QuantizerTimes.
Local Open Scope Q_scope.

Lemma Qlt_bool_iff x y : Qlt_bool x y = true <-> x < y.
Proof.
  unfold Qlt_bool. rewrite negb_true_iff. split; intros H.
  - apply Qnot_le_lt. intros H'. apply Qle_bool_iff in H'. congruence.
  - destruct (Qle_bool y x) eqn:E; [|reflexivity].
    apply Qle_bool_iff in E. exfalso. exact (Qlt_not_le x y H E).
Qed.

Lemma ms_scale_factor_pos tempo : 0 < tempo -> 0 < ms_scale_factor tempo.
Proof.
  intros Ht. unfold ms_scale_factor, Qdiv.
  apply Qmult_lt_0_compat; [apply Qmult_lt_0_compat|];
    [reflexivity|apply Qinv_lt_0_compat; exact Ht|reflexivity].
Qed.

Lemma duration_scaled tempo n :
  duration tempo n == ms_scale_factor tempo * (inject_Z (midi_end n) - inject_Z (midi_start n)).
Proof. unfold duration, end_ms, start_ms. ring. Qed.

Lemma quaver_duration_scaled tempo : quaver_duration tempo == ms_scale_factor tempo * 240.
Proof. unfold quaver_duration. rewrite duration_scaled. simpl. ring. Qed.

Lemma quaver_duration_pos tempo : 0 < tempo -> 0 < quaver_duration tempo.
Proof.
  intros Ht. rewrite quaver_duration_scaled. pose proof (ms_scale_factor_pos _ Ht). lra.
Qed.




Lemma note_step_in_sync g tempo ss es st n st' :
  0 < tempo -> music_time st <= output_time st ->
  note_step g tempo ss es st n = Some st' -> music_time st' <= output_time st'.
Proof.
  intros Ht Hmo Hstep. pose proof (quaver_duration_pos _ Ht) as Hq.
  unfold note_step in Hstep. cbv zeta in Hstep.
  destruct (skip_before tempo ss n); [injection Hstep as <-; simpl; apply Qle_refl|].
  destruct (stop_after tempo es n); [discriminate|].
  set (d := duration tempo n) in *. set (q := quaver_duration tempo) in *.
  destruct (Qle_bool (music_time st + d) (output_time st)) eqn:Hle;
    [injection Hstep as <-; apply Qle_bool_iff; exact Hle|].
  assert (Hgt : output_time st < music_time st + d).
  { apply Qnot_le_lt. intros H. apply Qle_bool_iff in H. congruence. }
  assert (Hq0 : ~ q == 0) by (intros E; rewrite E in Hq; exact (Qlt_irrefl 0 Hq)).
  pose proof (Qmult_div_r d q Hq0) as Hd. set (r := d / q) in *.
  destruct (q_is_integer r).
  - injection Hstep as <-. simpl. lra.
  - destruct (Qlt_bool r 1) eqn:Hr1.
    + injection Hstep as <-. simpl. apply Qlt_bool_iff in Hr1.
      assert (q * r < q * 1) by (apply Qmult_lt_l; assumption). lra.
    + rewrite (proj2 (Qlt_bool_iff _ _) Hgt) in Hstep. injection Hstep as <-. simpl.
      pose proof (Qle_ceiling r) as Hc.
      assert (q * r <= q * inject_Z (Qceiling r)) by (apply Qmult_le_l; assumption).
      lra.
Qed.

Lemma walk_in_sync g tempo ss es notes : forall st,
  0 < tempo -> music_time st <= output_time st ->
  music_time (walk g tempo ss es st notes) <= output_time (walk g tempo ss es st notes).
Proof.
  induction notes as [|n rest IH]; intros st Ht Hst; simpl; [exact Hst|].
  destruct (note_step g tempo ss es st n) as [st'|] eqn:Hstep; [|exact Hst].
  apply IH; [exact Ht|]. eapply note_step_in_sync; eassumption.
Qed.



(** For a positive tempo and any window, after every prefix of the notes
    the output time is at least the music time: the quantizer is never
    behind the music once a note has been processed. *)
Theorem walk_never_behind (notes : list Note) (tempo : Q) (ss es : option Q) (k : nat) :
  0 < tempo ->
  music_time (walk_prefix tempo ss es notes k) <= output_time (walk_prefix tempo ss es notes k).
Proof.
  intros Ht. unfold walk_prefix. apply walk_in_sync; [exact Ht|]. simpl. apply Qle_refl.
Qed.

Lemma walk_never_behind_witness :
  0 < 125 /\ music_time (walk_prefix 125 None None dotted_quavers 2) <=
            output_time (walk_prefix 125 None None dotted_quavers 2).
Proof.
  split; [reflexivity|]. apply walk_never_behind. reflexivity.
Defined.



End QuantizerTimes.

(* ------------------------------------------------------------------ *)
(** ** The pitch folder: where each pitch lands *)

Lemma raise_low_lowest_octave : forall fuel p,
  p <= 60 -> MIDI_LOW < p + 12 * Z.of_nat fuel -> MIDI_LOW < raise_low fuel p <= 60.
Proof.
  induction fuel as [|f IH]; intros p Hp Hb; simpl; unfold MIDI_LOW in *.
  - lia.
  - destruct (p <=? 48) eqn:Hl.
    + apply Z.leb_le in Hl. apply IH; lia.
    + apply Z.leb_gt in Hl. lia.
Qed.

Lemma lower_high_highest_octave : forall fuel p,
  83 <= p -> p - 12 * Z.of_nat fuel < MIDI_HIGH -> 83 <= lower_high fuel p < MIDI_HIGH.
Proof.
  induction fuel as [|f IH]; intros p Hp Hb; simpl; unfold MIDI_HIGH in *.
  - lia.
  - destruct (p >=? 95) eqn:Hh.
    + apply Z.geb_le in Hh. apply IH; lia.
    + rewrite Z.geb_leb in Hh. apply Z.leb_gt in Hh. lia.
Qed.

Lemma raise_low_keeps fuel p : MIDI_LOW < p -> raise_low (S fuel) p = p.
Proof.
  intros Hp. simpl. destruct (p <=? MIDI_LOW) eqn:E; [apply Z.leb_le in E; lia|reflexivity].
Qed.

Lemma lower_high_keeps fuel p : p < MIDI_HIGH -> lower_high (S fuel) p = p.
Proof.
  intros Hp. simpl. destruct (p >=? MIDI_HIGH) eqn:E; [apply Z.geb_le in E; lia|reflexivity].
Qed.

(** [rel_pitch] leaves a pitch strictly between [MIDI_LOW] and [MIDI_HIGH]
    where it is, moves a pitch at or below [MIDI_LOW] into the lowest octave
    of the band (49..60, symbols 1..12) and a pitch at or above [MIDI_HIGH]
    into the highest octave of the band (83..94, symbols 35..46). *)
Theorem rel_pitch_placement (p : Z) :
  (MIDI_LOW < p < MIDI_HIGH -> rel_pitch p = p - MIDI_LOW) /\
  (p <= MIDI_LOW -> 1 <= rel_pitch p <= 12) /\
  (MIDI_HIGH <= p -> 35 <= rel_pitch p <= 46).
Proof.
  unfold rel_pitch, fold_pitch, loop_budget. split; [|split]; intros Hp.
  - rewrite raise_low_keeps by lia. rewrite lower_high_keeps by lia. reflexivity.
  - destruct (raise_low_lowest_octave (S (Z.to_nat (MIDI_LOW - p))) p) as [H1 H2];
      [unfold MIDI_LOW in *; lia|unfold MIDI_LOW in *; lia|].
    rewrite lower_high_keeps by (unfold MIDI_HIGH; lia). unfold MIDI_LOW in *. lia.
  - rewrite raise_low_keeps by (unfold MIDI_LOW, MIDI_HIGH in *; lia).
    destruct (lower_high_highest_octave (S (Z.to_nat (p - MIDI_HIGH))) p) as [H1 H2];
      [unfold MIDI_HIGH in *; lia|unfold MIDI_HIGH in *; lia|].
    unfold MIDI_LOW, MIDI_HIGH in *. lia.
Qed.

Lemma rel_pitch_placement_witness :
  rel_pitch 60 = 60 - MIDI_LOW /\ (1 <= rel_pitch 30 <= 12) /\ (35 <= rel_pitch 100 <= 46).
Proof.
  split; [apply (proj1 (rel_pitch_placement 60)); unfold MIDI_LOW, MIDI_HIGH; lia|].
  split; [apply (proj1 (proj2 (rel_pitch_placement 30))); unfold MIDI_LOW; lia|].
  apply (proj2 (proj2 (rel_pitch_placement 100))). unfold MIDI_HIGH. lia.
Defined.

(* ------------------------------------------------------------------ *)
(** ** The quantizer: symbols and the final [join] *)

Lemma rel_pitch_range p : 0 < rel_pitch p < MIDI_HIGH - MIDI_LOW.
Proof.
  unfold rel_pitch, fold_pitch, loop_budget.
  set (p1 := raise_low _ p).
  destruct (raise_low_done (S (Z.to_nat (MIDI_LOW - p))) p) as [H1 _];
    [unfold MIDI_LOW in *; lia|].
  fold p1 in H1.
  destruct (lower_high_done (S (Z.to_nat (p1 - MIDI_HIGH))) p1) as [H2 _];
    [exact H1|unfold MIDI_HIGH in *; lia|].
  lia.
Qed.

Lemma note_step_contour g tempo ss es st n st' :
  note_step g tempo ss es st n = Some st' ->
  exists k, midi_contour st' = midi_contour st ++ repeat (rel_pitch (pitch n)) k.
Proof.
  intros Hstep. unfold note_step in Hstep. cbv zeta in Hstep.
  destruct (skip_before tempo ss n);
    [injection Hstep as <-; exists O; rewrite app_nil_r; reflexivity|].
  destruct (stop_after tempo es n); [discriminate|].
  destruct (Qle_bool _ _); [injection Hstep as <-; exists O; rewrite app_nil_r; reflexivity|].
  destruct (q_is_integer _); [injection Hstep as <-; eexists; reflexivity|].
  destruct (Qlt_bool _ _); [injection Hstep as <-; exists 1%nat; reflexivity|].
  injection Hstep as <-. eexists. reflexivity.
Qed.

Lemma walk_contour_from g tempo ss es notes : forall st,
  Forall (fun i => 0 < i < MIDI_HIGH - MIDI_LOW) (midi_contour st) ->
  Forall (fun i => 0 < i < MIDI_HIGH - MIDI_LOW) (midi_contour (walk g tempo ss es st notes)).
Proof.
  induction notes as [|n rest IH]; intros st Hst; simpl; [exact Hst|].
  destruct (note_step g tempo ss es st n) as [st'|] eqn:Hstep; [|exact Hst].
  apply IH. destruct (note_step_contour _ _ _ _ _ _ _ Hstep) as [k ->].
  apply Forall_app. split; [exact Hst|].
  apply List.Forall_forall. intros x Hx. apply repeat_spec in Hx as ->. apply rel_pitch_range.
Qed.

Lemma string_get_lt : forall s m, (m < String.length s)%nat -> exists c, String.get m s = Some c.
Proof.
  induction s as [|c s IH]; intros m Hm; simpl in Hm; [lia|].
  destruct m as [|m]; simpl; [eauto|]. apply IH. lia.
Qed.

Lemma join_symbols_in_range : forall l,
  Forall (fun i => 0 <= i < MIDI_NUM) l ->
  exists s, join_symbols l = Some s /\ String.length s = length l.
Proof.
  induction l as [|i rest IH]; intros Hl; simpl; [eauto|].
  apply Forall_cons_iff in Hl as [Hi Hrest].
  destruct (IH Hrest) as [s [Hs Hlen]].
  destruct (string_get_lt MIDI_MAP (Z.to_nat i)) as [c Hc].
  { replace (String.length MIDI_MAP) with 48%nat by reflexivity.
    unfold MIDI_NUM, MIDI_HIGH, MIDI_LOW in Hi. lia. }
  unfold py_index. rewrite (proj2 (Z.ltb_ge i 0) (proj1 Hi)), (proj2 (Z.ltb_ge i 0) (proj1 Hi)).
  rewrite Hc, Hs. exists (String c s). split; [reflexivity|]. simpl. lia.
Qed.

(** [to_midi_contour] never fails on the [MIDI_MAP] lookup: for every
    tempo at which [set_tempo] does not divide by zero, and any window, it
    returns a string with exactly one character per entry of the quantized
    contour. *)
Theorem to_midi_contour_no_index_error (notes : list Note) (tempo : Q) (ss es : option Q) :
  ~ (tempo == 0)%Q ->
  exists s, to_midi_contour notes tempo ss es = Some s /\
    String.length s = length (midi_contour (walk Qfloor tempo ss es qstate0 notes)).
Proof.
  intros _. unfold to_midi_contour, to_midi_contour_gen. apply join_symbols_in_range.
  eapply List.Forall_impl; [|apply walk_contour_from; constructor].
  simpl. unfold MIDI_NUM. intros i Hi. lia.
Qed.

Lemma to_midi_contour_no_index_error_witness :
  ~ (125 == 0)%Q /\
  exists s, to_midi_contour dotted_quavers 125 None None = Some s /\
    String.length s = length (midi_contour (walk Qfloor 125 None None qstate0 dotted_quavers)).
Proof.
  assert (H : ~ (125 == 0)%Q) by discriminate.
  split; [exact H|]. exact (to_midi_contour_no_index_error dotted_quavers 125 None None H).
Defined.

(* ------------------------------------------------------------------ *)
(** ** The quantizer at two tempos *)

Section TempoScaling.
Local Open Scope Q_scope.










End TempoScaling.

(* ------------------------------------------------------------------ *)
(** ** deduplicate_aliases: what the result looks like *)

Lemma string_leb_trans : forall s1 s2 s3,
  String.leb s1 s2 = true -> String.leb s2 s3 = true -> String.leb s1 s3 = true.
Proof.
  unfold String.leb.
  induction s1 as [|c1 t1 IH]; intros [|c2 t2] [|c3 t3] H1 H2; simpl in *;
    try discriminate; try reflexivity.
  unfold Ascii.compare in *.
  destruct (N.compare (N_of_ascii c1) (N_of_ascii c2)) eqn:E12; try discriminate;
  destruct (N.compare (N_of_ascii c2) (N_of_ascii c3)) eqn:E23; try discriminate;
  destruct (N.compare (N_of_ascii c1) (N_of_ascii c3)) eqn:E13; try reflexivity;
  try apply N.compare_eq_iff in E12; try pose proof (proj1 (N.compare_lt_iff _ _) E12);
  try apply N.compare_eq_iff in E23; try pose proof (proj1 (N.compare_lt_iff _ _) E23);
  try apply N.compare_eq_iff in E13; try pose proof (proj1 (N.compare_gt_iff _ _) E13); try lia.
  apply (IH t2 t3); assumption.
Qed.

Lemma sort_insert_perm {A} (le : A -> A -> bool) x l : Permutation (sort_insert le x l) (x :: l).
Proof.
  induction l as [|y rest IH]; simpl; [reflexivity|].
  destruct (le y x); [|reflexivity].
  rewrite IH. apply perm_swap.
Qed.

Lemma py_sorted_perm {A} (le : A -> A -> bool) l : Permutation (py_sorted le l) l.
Proof.
  unfold py_sorted.
  enough (H : forall acc, Permutation (fold_left (fun acc y => sort_insert le y acc) l acc) (l ++ acc))
    by (rewrite H, app_nil_r; reflexivity).
  induction l as [|y rest IH]; intros acc; simpl; [reflexivity|].
  rewrite IH, sort_insert_perm. symmetry. apply Permutation_middle.
Qed.

Lemma sort_insert_leb_sorted x l :
  StronglySorted (fun a b => String.leb a b = true) l ->
  StronglySorted (fun a b => String.leb a b = true) (sort_insert String.leb x l).
Proof.
  induction l as [|y rest IH]; intros Hs; simpl; [repeat constructor|].
  apply StronglySorted_inv in Hs as [Hrest Hy].
  destruct (String.leb y x) eqn:Hyx.
  - constructor; [apply IH, Hrest|].
    apply List.Forall_forall. intros z Hz. apply sort_insert_In in Hz as [->|Hz]; [exact Hyx|].
    rewrite List.Forall_forall in Hy. apply Hy, Hz.
  - assert (Hxy : String.leb x y = true) by (destruct (String.leb_total x y); congruence).
    constructor; [constructor; assumption|].
    constructor; [exact Hxy|].
    apply List.Forall_forall. intros z Hz. rewrite List.Forall_forall in Hy.
    exact (string_leb_trans x y z Hxy (Hy z Hz)).
Qed.

Lemma py_sorted_leb_sorted l :
  StronglySorted (fun a b => String.leb a b = true) (py_sorted String.leb l).
Proof.
  unfold py_sorted.
  enough (H : forall acc, StronglySorted (fun a b => String.leb a b = true) acc ->
            StronglySorted (fun a b => String.leb a b = true)
              (fold_left (fun acc y => sort_insert String.leb y acc) l acc))
    by (apply H; constructor).
  induction l as [|y rest IH]; intros acc Hacc; simpl; [exact Hacc|].
  apply IH, sort_insert_leb_sorted, Hacc.
Qed.

Lemma sorted_perm_eq : forall l1 l2 : list string,
  StronglySorted (fun a b => String.leb a b = true) l1 ->
  StronglySorted (fun a b => String.leb a b = true) l2 ->
  Permutation l1 l2 -> l1 = l2.
Proof.
  induction l1 as [|x r1 IH]; intros l2 H1 H2 HP.
  - symmetry. apply Permutation_nil, HP.
  - destruct l2 as [|y r2].
    { apply Permutation_sym, Permutation_nil in HP. discriminate. }
    apply StronglySorted_inv in H1 as [H1 Hx]. apply StronglySorted_inv in H2 as [H2 Hy].
    assert (Hxy : x = y).
    { destruct (String.eqb_spec x y) as [E|Ne]; [exact E|].
      assert (Hx2 : In x r2).
      { assert (Hin : In x (y :: r2)) by (eapply Permutation_in; [exact HP|left; reflexivity]).
        destruct Hin as [E|Hin]; [congruence|exact Hin]. }
      assert (Hy1 : In y r1).
      { assert (Hin : In y (x :: r1))
          by (eapply Permutation_in; [apply Permutation_sym; exact HP|left; reflexivity]).
        destruct Hin as [E|Hin]; [congruence|exact Hin]. }
      rewrite List.Forall_forall in Hx, Hy.
      apply String.leb_antisym; [apply Hx, Hy1|apply Hy, Hx2]. }
    subst y. f_equal. apply IH; [exact H1|exact H2|]. eapply Permutation_cons_inv; exact HP.
Qed.

Lemma dedup_first_aux_nodup : forall aliases seen,
  NoDup (map fst (dedup_first_aux seen aliases)) /\
  forall p, In p (dedup_first_aux seen aliases) -> p.1 ∉ seen.
Proof.
  induction aliases as [|a rest IH]; intros seen; simpl; [split; [constructor|tauto]|].
  destruct (bool_decide (clean_alias a ∈ seen)) eqn:Hs; [apply IH|].
  apply bool_decide_eq_false in Hs.
  destruct (IH (clean_alias a :: seen)) as [Hnd Hnot]. split.
  - simpl. constructor; [|exact Hnd].
    intros Hin. apply list_elem_of_In, in_map_iff in Hin as [p [Hp Hin]].
    apply (Hnot p Hin). rewrite Hp. apply elem_of_cons. left. reflexivity.
  - intros p [<-|Hp]; [exact Hs|]. intros Hps. apply (Hnot p Hp), elem_of_cons. right. exact Hps.
Qed.

Lemma remove_subsets_nodup : forall L,
  (forall p, In p L -> p.1 = clean_alias p.2) -> NoDup (map fst L) ->
  NoDup (map clean_alias (remove_subsets L)).
Proof.
  induction L as [|[c a] rest IH]; intros Hcl Hnd; [constructor|].
  inversion Hnd as [|? ? Hnotin Hnd']; subst.
  assert (IH' := IH (fun p Hp => Hcl p (or_intror Hp)) Hnd').
  rewrite remove_subsets_cons. destruct (existsb _ _); [exact IH'|].
  cbn [map]. constructor; [|exact IH'].
  intros Hin. apply list_elem_of_In, in_map_iff in Hin as [s [Hs Hin]].
  apply remove_subsets_from in Hin as [p [Hp Hps]].
  pose proof (Hcl (c, a) (or_introl eq_refl)) as Hc. simpl in Hc.
  apply Hnotin, list_elem_of_In. simpl. rewrite Hc.
  rewrite <- Hs, <- Hps, <- (Hcl p (or_intror Hp)). apply in_map, Hp.
Qed.

Lemma deduplicate_aliases_facts (aliases : list string) :
  (forall s, In s (deduplicate_aliases aliases) -> In s aliases) /\
  NoDup (map clean_alias (deduplicate_aliases aliases)) /\
  (forall s t, In s (deduplicate_aliases aliases) -> In t (deduplicate_aliases aliases) ->
     ~ clean_alias s ⊂ clean_alias t) /\
  StronglySorted (fun a b => String.leb a b = true) (deduplicate_aliases aliases).
Proof.
  set (L := py_sorted by_size (dedup_first aliases)).
  assert (Hcl : forall p, In p L -> p.1 = clean_alias p.2) by apply sorted_pairs_clean.
  split; [|split; [|split]].
  - intros s Hs. apply deduplicate_aliases_In, remove_subsets_from in Hs as [p [Hp <-]].
    apply py_sorted_In in Hp. exact (proj2 (dedup_first_aux_pairs aliases [] p Hp)).
  - unfold deduplicate_aliases. fold L.
    assert (P1 : Permutation (map clean_alias (py_sorted String.leb (remove_subsets L)))
                             (map clean_alias (remove_subsets L)))
      by (apply Permutation_map, py_sorted_perm).
    rewrite P1. apply remove_subsets_nodup; [exact Hcl|].
    assert (P2 : Permutation (map fst L) (map fst (dedup_first aliases)))
      by (apply Permutation_map, py_sorted_perm).
    rewrite P2. apply (proj1 (dedup_first_aux_nodup aliases [])).
  - intros s t Hs Ht Hsub.
    apply deduplicate_aliases_In in Hs, Ht. fold L in Hs, Ht.
    apply remove_subsets_from in Ht as [p [Hp Hpt]].
    apply (remove_subsets_drops L Hcl (py_sorted_by_size_sorted _) p s Hp); [|exact Hs].
    rewrite (Hcl p Hp), Hpt. exact Hsub.
  - apply py_sorted_leb_sorted.
Qed.

(** [deduplicate_aliases] returns aliases taken from its input, in
    alphabetical order, no two of which clean to the same token set and
    none of which cleans to a proper subset of another's token set. *)
Theorem deduplicate_aliases_canonical (aliases : list string) :
  (forall s, In s (deduplicate_aliases aliases) -> In s aliases) /\
  NoDup (map clean_alias (deduplicate_aliases aliases)) /\
  (forall s t, In s (deduplicate_aliases aliases) -> In t (deduplicate_aliases aliases) ->
     ~ clean_alias s ⊂ clean_alias t) /\
  StronglySorted (fun a b => String.leb a b = true) (deduplicate_aliases aliases).
Proof. apply deduplicate_aliases_facts. Qed.

Lemma dedup_first_aux_distinct : forall l seen,
  NoDup (map clean_alias l) -> (forall a, In a l -> clean_alias a ∉ seen) ->
  dedup_first_aux seen l = map (fun a => (clean_alias a, a)) l.
Proof.
  induction l as [|a rest IH]; intros seen Hnd Hseen; [reflexivity|].
  inversion Hnd as [|? ? Hnotin Hnd']; subst.
  cbn [dedup_first_aux map].
  rewrite bool_decide_eq_false_2 by (apply Hseen; left; reflexivity).
  f_equal. apply IH; [exact Hnd'|]. intros b Hb. rewrite elem_of_cons. intros [Hbe|Hbs].
  - apply Hnotin, list_elem_of_In. rewrite <- Hbe. apply in_map, Hb.
  - apply (Hseen b); [right; exact Hb|exact Hbs].
Qed.

Lemma remove_subsets_all : forall L,
  (forall p q, In p L -> In q L -> ~ p.1 ⊂ q.1) -> remove_subsets L = map snd L.
Proof.
  induction L as [|[c a] rest IH]; intros H; [reflexivity|].
  rewrite remove_subsets_cons.
  destruct (existsb (fun p => strict_subset c p.1) ((c, a) :: rest)) eqn:Hex.
  - exfalso. apply existsb_exists in Hex as [p [Hp Hs]].
    unfold strict_subset in Hs. apply bool_decide_eq_true in Hs.
    exact (H (c, a) p (or_introl eq_refl) Hp Hs).
  - cbn [map snd]. f_equal. apply IH. intros p q Hp Hq. apply H; right; assumption.
Qed.

(** Running [deduplicate_aliases] on its own result changes nothing. *)
Theorem deduplicate_aliases_idempotent (aliases : list string) :
  deduplicate_aliases (deduplicate_aliases aliases) = deduplicate_aliases aliases.
Proof.
  destruct (deduplicate_aliases_facts aliases) as [_ [Hnd [Hanti Hsorted]]].
  set (out := deduplicate_aliases aliases) in *.
  unfold deduplicate_aliases at 1. unfold dedup_first.
  rewrite (dedup_first_aux_distinct out [] Hnd) by (intros a _ Ha; apply elem_of_nil in Ha; exact Ha).
  set (L := py_sorted by_size (map (fun a => (clean_alias a, a)) out)).
  assert (HL : forall p, In p L -> exists s, In s out /\ p = (clean_alias s, s)).
  { intros p Hp. apply py_sorted_In, in_map_iff in Hp as [s [<- Hs]]. eauto. }
  rewrite remove_subsets_all.
  2: { intros p q Hp Hq. destruct (HL p Hp) as [s [Hs ->]]. destruct (HL q Hq) as [t [Ht ->]].
       apply Hanti; assumption. }
  apply sorted_perm_eq; [apply py_sorted_leb_sorted|exact Hsorted|].
  rewrite py_sorted_perm. unfold L. rewrite py_sorted_perm, map_map. simpl. rewrite map_id.
  reflexivity.
Qed.

(* ------------------------------------------------------------------ *)
(** ** gather_aliases *)

Lemma keyed_records_some rs :
  Forall (fun r => py_isdigit (ar_tune_id r) = true) rs -> exists ks, keyed_records rs = Some ks.
Proof.
  induction rs as [|r rest IH]; intros H; [exists []; reflexivity|].
  apply Forall_cons_iff in H as [Hr Hrest]. destruct (IH Hrest) as [ks Hks].
  exists ((digits_value (ar_tune_id r), r) :: ks). simpl. unfold py_int. rewrite Hr, Hks.
  reflexivity.
Qed.

Lemma keyed_records_snd : forall rs ks, keyed_records rs = Some ks -> map snd ks = rs.
Proof.
  induction rs as [|r rest IH]; intros ks H; simpl in H; [injection H as <-; reflexivity|].
  destruct (py_int (ar_tune_id r)) as [k|]; [|discriminate].
  destruct (keyed_records rest) as [ks'|]; [|discriminate].
  injection H as <-. simpl. rewrite (IH ks' eq_refl). reflexivity.
Qed.

Lemma append_alias_lookup m r tid :
  append_alias m r !! tid =
  if String.eqb (ar_tune_id r) tid then Some (dd_get m tid ++ [py_lower (ar_alias r)])
  else m !! tid.
Proof.
  unfold append_alias. destruct (String.eqb_spec (ar_tune_id r) tid) as [<-|Hne].
  - apply lookup_insert_eq.
  - apply lookup_insert_ne. exact Hne.
Qed.

Lemma append_fold_lookup : forall rs m tid,
  fold_left append_alias rs m !! tid =
  match m !! tid, List.filter (fun r => String.eqb (ar_tune_id r) tid) rs with
  | None, [] => None
  | _, recs => Some (dd_get m tid ++ map (fun r => py_lower (ar_alias r)) recs)
  end.
Proof.
  induction rs as [|r rest IH]; intros m tid; simpl.
  - unfold dd_get. destruct (m !! tid); [|reflexivity]. simpl. rewrite app_nil_r. reflexivity.
  - rewrite IH. unfold dd_get. rewrite !append_alias_lookup. unfold dd_get.
    destruct (String.eqb (ar_tune_id r) tid).
    + destruct (m !! tid); simpl; try rewrite <- app_assoc; reflexivity.
    + reflexivity.
Qed.

(** The dict after the first loop, for a permutation [srs] of the records. *)
Lemma first_loop_lookup srs tid :
  fold_left append_alias srs ∅ !! tid =
  match List.filter (fun r => String.eqb (ar_tune_id r) tid) srs with
  | [] => None
  | recs => Some (map (fun r => py_lower (ar_alias r)) recs)
  end.
Proof.
  rewrite append_fold_lookup. unfold dd_get. rewrite lookup_empty. simpl.
  destruct (List.filter _ _); reflexivity.
Qed.

Lemma add_name_lookup m t tid :
  add_name m t !! tid =
  if String.eqb (ts_tune_id t) tid then
    Some (match dd_get m tid with
          | [] => [py_lower (ts_name t)]
          | a0 :: rest => if String.eqb a0 (py_lower (ts_name t)) then a0 :: rest
                          else py_lower (ts_name t) :: a0 :: rest
          end)
  else m !! tid.
Proof.
  unfold add_name. destruct (String.eqb_spec (ts_tune_id t) tid) as [<-|Hne].
  - destruct (dd_get m (ts_tune_id t)) as [|a0 rest]; [|destruct (String.eqb a0 _)];
      apply lookup_insert_eq.
  - destruct (dd_get m (ts_tune_id t)) as [|a0 rest]; [|destruct (String.eqb a0 _)];
      apply lookup_insert_ne; exact Hne.
Qed.

Lemma add_name_value l x :
  let v := match l with
           | [] => [x]
           | a0 :: rest => if String.eqb a0 x then a0 :: rest else x :: a0 :: rest
           end in
  head v = Some x /\ forall s, In s v -> s = x \/ In s l.
Proof.
  destruct l as [|a0 rest]; simpl.
  - split; [reflexivity|]. intros s [<-|[]]. left. reflexivity.
  - destruct (String.eqb_spec a0 x) as [->|Hne]; simpl.
    + split; [reflexivity|]. intros s Hs. right. exact Hs.
    + split; [reflexivity|]. intros s [<-|Hs]; [left; reflexivity|right; exact Hs].
Qed.

Lemma add_name_fold_other : forall td m tid,
  (forall t, In t td -> ts_tune_id t <> tid) -> fold_left add_name td m !! tid = m !! tid.
Proof.
  induction td as [|t rest IH]; intros m tid H; simpl; [reflexivity|].
  rewrite IH by (intros t' Ht'; apply H; right; exact Ht').
  rewrite add_name_lookup. destruct (String.eqb_spec (ts_tune_id t) tid) as [E|_]; [|reflexivity].
  exfalso. exact (H t (or_introl eq_refl) E).
Qed.


Lemma add_name_fold_nonempty : forall td m,
  (forall k l, m !! k = Some l -> l <> []) ->
  forall k l, fold_left add_name td m !! k = Some l -> l <> [].
Proof.
  induction td as [|t rest IH]; intros m Hm; simpl; [exact Hm|].
  apply IH. intros k l Hk. rewrite add_name_lookup in Hk.
  destruct (String.eqb (ts_tune_id t) k); [|exact (Hm k l Hk)].
  injection Hk as <-. destruct (dd_get m k) as [|a0 r]; [discriminate|].
  destruct (String.eqb a0 _); discriminate.
Qed.

Lemma add_name_fold_source : forall td m tid l s,
  fold_left add_name td m !! tid = Some l -> In s l ->
  (exists l0, m !! tid = Some l0 /\ In s l0) \/
  (exists t, In t td /\ ts_tune_id t = tid /\ s = py_lower (ts_name t)).
Proof.
  induction td as [|t rest IH]; intros m tid l s Hl Hs; simpl in Hl.
  - left. exists l. tauto.
  - destruct (IH _ _ _ _ Hl Hs) as [[l0 [Hl0 Hs0]]|[t' [Ht' [E Hst]]]];
      [|right; exists t'; simpl; tauto].
    rewrite add_name_lookup in Hl0.
    destruct (String.eqb_spec (ts_tune_id t) tid) as [E|Hne]; [|left; exists l0; tauto].
    injection Hl0 as <-. destruct (add_name_value (dd_get m tid) (py_lower (ts_name t)))
      as [_ Hsrc].
    destruct (Hsrc s Hs0) as [->|Hin].
    + right. exists t. simpl. tauto.
    + left. unfold dd_get in Hin. destruct (m !! tid) as [l1|]; [exists l1; tauto|contradiction].
Qed.

Lemma gather_aliases_unfold ar td m :
  gather_aliases ar td = Some m ->
  exists ks, keyed_records ar = Some ks /\
    m = fold_left add_name td
          (deduplicate_aliases <$>
             fold_left append_alias (map snd (py_sorted (fun x y => (x.1 <=? y.1)%Z) ks)) ∅).
Proof.
  unfold gather_aliases. destruct (keyed_records ar) as [ks|]; [|discriminate]. cbv zeta.
  destruct (forallb _ _); [|discriminate]. intros H. injection H as <-. eauto.
Qed.

Lemma sorted_records_perm ar ks :
  keyed_records ar = Some ks ->
  Permutation (map snd (py_sorted (fun x y => (x.1 <=? y.1)%Z) ks)) ar.
Proof.
  intros H. rewrite <- (keyed_records_snd ar ks H). apply Permutation_map, py_sorted_perm.
Qed.

Lemma deduplicate_aliases_ne aliases : aliases <> [] -> deduplicate_aliases aliases <> [].
Proof.
  intros Hne. destruct (max_by_size _ (dedup_first_nonempty aliases Hne)) as [M [HM Hmax]].
  intros Hnil. assert (Hin : In M.2 (deduplicate_aliases aliases)).
  { apply deduplicate_aliases_In, remove_subsets_keeps_max; [apply py_sorted_In, HM|].
    intros p Hp. apply py_sorted_In in Hp. apply Hmax, Hp. }
  rewrite Hnil in Hin. exact Hin.
Qed.


Lemma add_name_head l x :
  exists rest, (match l with
                | [] => [x]
                | a0 :: r => if String.eqb a0 x then a0 :: r else x :: a0 :: r
                end) = x :: rest.
Proof.
  destruct l as [|a0 r]; [eexists; reflexivity|].
  destruct (String.eqb_spec a0 x) as [->|_]; eexists; reflexivity.
Qed.

(** When every alias record's tune id is a string of digits, [gather_aliases]
    raises nothing: the [int] sort keys parse, and the final [assert] holds
    because every tune id it stores has at least one alias. *)
Theorem gather_aliases_succeeds (alias_records : list alias_record) (tune_data : list tune_setting) :
  Forall (fun r => py_isdigit (ar_tune_id r) = true) alias_records ->
  exists m, gather_aliases alias_records tune_data = Some m.
Proof.
  intros Hd. destruct (keyed_records_some _ Hd) as [ks Hks].
  unfold gather_aliases. rewrite Hks. cbv zeta.
  assert (Hne : forall k l,
    fold_left add_name tune_data
      (deduplicate_aliases <$>
         fold_left append_alias (map snd (py_sorted (fun x y => (x.1 <=? y.1)%Z) ks)) ∅) !! k
      = Some l -> l <> []).
  { apply add_name_fold_nonempty. intros k l Hk. rewrite lookup_fmap, first_loop_lookup in Hk.
    destruct (List.filter _ _) as [|r rest]; [discriminate|].
    injection Hk as <-. apply deduplicate_aliases_ne. discriminate. }
  rewrite (proj2 (forallb_forall _ _)); [eexists; reflexivity|].
  intros [k l] Hkl. apply negb_true_iff, bool_decide_eq_false. simpl.
  apply (Hne k l). apply elem_of_map_to_list, list_elem_of_In, Hkl.
Qed.

Lemma gather_aliases_succeeds_witness :
  Forall (fun r => py_isdigit (ar_tune_id r) = true) reel_records /\
  exists m, gather_aliases reel_records reel_tunes = Some m.
Proof.
  assert (H : Forall (fun r => py_isdigit (ar_tune_id r) = true) reel_records)
    by (repeat constructor).
  split; [exact H|]. exact (gather_aliases_succeeds reel_records reel_tunes H).
Defined.



(** For a setting [t] that is the last one of its tune id in [tune_data],
    the stored list of that tune id starts with [t]'s lower-cased name. *)
Theorem gather_aliases_name_first (alias_records : list alias_record) (tune_data : list tune_setting)
    (m : gmap string (list string)) (pre : list tune_setting) (t : tune_setting)
    (post : list tune_setting) :
  gather_aliases alias_records tune_data = Some m ->
  tune_data = pre ++ t :: post ->
  (forall t', In t' post -> ts_tune_id t' <> ts_tune_id t) ->
  exists rest, m !! ts_tune_id t = Some (py_lower (ts_name t) :: rest).
Proof.
  intros Hg Htd Hpost. destruct (gather_aliases_unfold _ _ _ Hg) as [ks [_ ->]].
  rewrite Htd, fold_left_app. cbn [fold_left].
  rewrite add_name_fold_other by exact Hpost.
  rewrite add_name_lookup, String.eqb_refl.
  match goal with
  | |- context [match ?l with [] => _ | _ :: _ => _ end] =>
      destruct (add_name_head l (py_lower (ts_name t))) as [rest Hr]; rewrite Hr
  end.
  eexists. reflexivity.
Qed.

Lemma gather_aliases_name_first_witness :
  gather_aliases reel_records reel_tunes = Some reel_aliases /\
  exists rest, reel_aliases !! ts_tune_id (mkSetting "1" "The Reel") =
               Some (py_lower (ts_name (mkSetting "1" "The Reel")) :: rest).
Proof.
  assert (H : gather_aliases reel_records reel_tunes = Some reel_aliases)
    by (vm_compute; reflexivity).
  split; [exact H|].
  apply (gather_aliases_name_first reel_records reel_tunes reel_aliases []
           (mkSetting "1" "The Reel") [] H); [reflexivity|].
  intros t' [].
Defined.

(** Every alias [gather_aliases] stores under a tune id is the lower-cased
    name of a setting with that id or the lower-cased alias of a record
    with that id. *)
Theorem gather_aliases_sources (alias_records : list alias_record) (tune_data : list tune_setting)
    (m : gmap string (list string)) (tid : string) (l : list string) (s : string) :
  gather_aliases alias_records tune_data = Some m -> m !! tid = Some l -> In s l ->
  (exists t, In t tune_data /\ ts_tune_id t = tid /\ s = py_lower (ts_name t)) \/
  (exists r, In r alias_records /\ ar_tune_id r = tid /\ s = py_lower (ar_alias r)).
Proof.
  intros Hg Hl Hs. destruct (gather_aliases_unfold _ _ _ Hg) as [ks [Hks ->]].
  pose proof (sorted_records_perm _ _ Hks) as Hp.
  destruct (add_name_fold_source _ _ _ _ _ Hl Hs) as [[l0 [Hl0 Hs0]]|H]; [right|left; exact H].
  rewrite lookup_fmap, first_loop_lookup in Hl0.
  destruct (List.filter (fun r => String.eqb (ar_tune_id r) tid) _) as [|r0 rest] eqn:Hf;
    [discriminate|].
  injection Hl0 as <-. apply (proj1 (deduplicate_aliases_facts _)) in Hs0.
  assert (Hs1 : In s (map (fun r => py_lower (ar_alias r)) (r0 :: rest))) by exact Hs0.
  rewrite <- Hf in Hs1. apply in_map_iff in Hs1 as [r [<- Hr]].
  apply filter_In in Hr as [Hr Hid]. apply String.eqb_eq in Hid.
  exists r. split; [eapply Permutation_in; [exact Hp|exact Hr]|]. tauto.
Qed.

Lemma gather_aliases_sources_witness :
  (gather_aliases reel_records reel_tunes = Some reel_aliases /\
   reel_aliases !! "1"%string = Some ["the reel"; "a jig"; "the reel"]%string /\
   In "a jig"%string ["the reel"; "a jig"; "the reel"]%string) /\
  ((exists t, In t reel_tunes /\ ts_tune_id t = "1"%string /\ "a jig"%string = py_lower (ts_name t)) \/
   (exists r, In r reel_records /\ ar_tune_id r = "1"%string /\ "a jig"%string = py_lower (ar_alias r))).
Proof.
  assert (H1 : gather_aliases reel_records reel_tunes = Some reel_aliases)
    by (vm_compute; reflexivity).
  assert (H2 : reel_aliases !! "1"%string = Some ["the reel"; "a jig"; "the reel"]%string)
    by (vm_compute; reflexivity).
  assert (H3 : In "a jig"%string ["the reel"; "a jig"; "the reel"]%string) by (simpl; tauto).
  split; [split; [exact H1|split; [exact H2|exact H3]]|].
  exact (gather_aliases_sources _ _ _ _ _ _ H1 H2 H3).
Defined.

(* ================================================================== *)
(** * The ABC text of generate_midi_contour *)

Lemma split_sep_aux_nonempty sep l : split_sep_aux sep l <> [].
Proof.
  destruct l as [|c rest]; simpl; [discriminate|].
  destruct (Ascii.eqb c sep); [discriminate|].
  destruct (split_sep_aux sep rest); discriminate.
Qed.

Lemma py_join_cons_char sep c w ws :
  py_join sep (String c w :: ws) = String c (py_join sep (w :: ws)).
Proof. destruct ws; reflexivity. Qed.

Lemma py_join_cons2 sep w w' ws :
  py_join sep (w :: w' :: ws) = (w ++ sep ++ py_join sep (w' :: ws))%string.
Proof. reflexivity. Qed.

Lemma py_join_split_sep c l :
  py_join (String c EmptyString) (map string_of_list_ascii (split_sep_aux c l)) =
  string_of_list_ascii l.
Proof.
  induction l as [|x rest IH]; [reflexivity|]. cbn [split_sep_aux].
  pose proof (split_sep_aux_nonempty c rest) as Hne.
  destruct (split_sep_aux c rest) as [|w ws]; [congruence|].
  destruct (Ascii.eqb x c) eqn:E.
  - apply Ascii.eqb_eq in E as ->. cbn [map]. cbn [map] in IH.
    change (String c (py_join (String c EmptyString)
      (string_of_list_ascii w :: map string_of_list_ascii ws)) = String c (string_of_list_ascii rest)).
    rewrite IH. reflexivity.
  - cbn [map string_of_list_ascii]. cbn [map] in IH.
    rewrite py_join_cons_char, IH. reflexivity.
Qed.

(** The ABC text [generate_midi_contour] hands to abc2midi is the fixed
    header with the stripped meter and mode, one line each, followed by the
    setting's [abc] field with every backslash and carriage return removed
    and nothing else changed: splitting the body at newlines and joining
    the lines with newlines again gives the body back. *)
Theorem abc_text_layout meter mode abc :
  abc_text meter mode abc =
  ("X:1" ++ newline ++ "T:" ++ newline ++ "M:" ++ py_strip meter ++ newline ++
   "L:1/8" ++ newline ++ "K:" ++ py_strip mode ++ newline ++
   py_remove_char "013"%char (py_remove_char "092"%char abc))%string.
Proof.
  unfold abc_text, py_split_sep.
  set (body := py_remove_char "013"%char (py_remove_char "092"%char abc)). clearbody body.
  pose proof (py_join_split_sep "010"%char (list_ascii_of_string body)) as J.
  rewrite string_of_list_ascii_of_string in J.
  pose proof (split_sep_aux_nonempty "010"%char (list_ascii_of_string body)) as Hne.
  destruct (split_sep_aux "010"%char (list_ascii_of_string body)) as [|w ws]; [congruence|].
  cbn [map] in J |- *. cbn [app]. rewrite !py_join_cons2.
  unfold newline in *. rewrite J. reflexivity.
Qed.

(* ================================================================== *)
(** * clean_thesession_data *)

Lemma py_del_Some k d d' : py_del k d = Some d' -> d !! k <> None /\ d' = delete k d.
Proof. unfold py_del. destruct (d !! k); intros H; [injection H as <-; split; congruence|discriminate]. Qed.

Lemma clean_setting_None d :
  clean_setting d = None <->
  d !! "date" = None \/ d !! "username" = None \/ d !! "name" = None \/ d !! "type" = None.
Proof.
  unfold clean_setting, py_del.
  destruct (d !! "date") eqn:E1; [|cbn; tauto]. cbn.
  rewrite lookup_delete_ne by discriminate.
  destruct (d !! "username") eqn:E2; [|cbn; tauto]. cbn.
  rewrite !lookup_delete_ne by discriminate.
  destruct (d !! "name") eqn:E3; [|cbn; tauto]. cbn.
  rewrite !lookup_delete_ne by discriminate.
  destruct (d !! "type") eqn:E4; [|cbn; tauto]. cbn.
  rewrite lookup_insert_ne by discriminate. rewrite !lookup_delete_ne by discriminate.
  rewrite E4. split; [discriminate|]. intros [H|[H|[H|H]]]; congruence.
Qed.

Lemma clean_setting_lookup d d' :
  clean_setting d = Some d' ->
  (exists ty, d !! "type" = Some ty /\ d' !! "dance" = Some ty) /\
  d' !! "date" = None /\ d' !! "username" = None /\ d' !! "name" = None /\
  d' !! "type" = None /\
  (forall k, ~ In k ["date"; "username"; "name"; "type"; "dance"]%string -> d' !! k = d !! k).
Proof.
  unfold clean_setting.
  destruct (py_del "date" d) as [d1|] eqn:E1; [|discriminate]. cbn.
  destruct (py_del "username" d1) as [d2|] eqn:E2; [|discriminate]. cbn.
  destruct (py_del "name" d2) as [d3|] eqn:E3; [|discriminate]. cbn.
  destruct (d3 !! "type") as [ty|] eqn:E4; [|discriminate]. cbn. intros E5.
  apply py_del_Some in E1 as [_ ->]. apply py_del_Some in E2 as [_ ->].
  apply py_del_Some in E3 as [_ ->]. apply py_del_Some in E5 as [_ ->].
  rewrite !lookup_delete_ne in E4 by discriminate.
  split; [exists ty; split; [exact E4|]|].
  { rewrite lookup_delete_ne by discriminate. apply lookup_insert_eq. }
  split; [rewrite lookup_delete_ne, lookup_insert_ne, !lookup_delete_ne, lookup_delete_eq
          by discriminate; reflexivity|].
  split; [rewrite lookup_delete_ne, lookup_insert_ne, !lookup_delete_ne, lookup_delete_eq
          by discriminate; reflexivity|].
  split; [rewrite lookup_delete_ne, lookup_insert_ne, lookup_delete_eq by discriminate; reflexivity|].
  split; [apply lookup_delete_eq|].
  intros k Hk. cbn [In] in Hk.
  rewrite lookup_delete_ne, lookup_insert_ne, !lookup_delete_ne by tauto. reflexivity.
Qed.

(** [clean_thesession_data] raises a [KeyError] exactly when some setting
    lacks one of the keys [date], [username], [name] and [type]. *)
Theorem clean_thesession_data_raises tune_data :
  clean_thesession_data tune_data = None <->
  Exists (fun d => d !! "date" = None \/ d !! "username" = None \/
                   d !! "name" = None \/ d !! "type" = None)%string tune_data.
Proof.
  unfold clean_thesession_data. rewrite mapM_None.
  split; intros H; (eapply Exists_impl; [exact H|]); intros d; apply clean_setting_None.
Qed.

(** When [clean_thesession_data] succeeds, it returns one dict per setting,
    in order: [dance] holds the old [type], the keys [date], [username],
    [name] and [type] are gone, and every other key keeps its value. *)
Theorem clean_thesession_data_entries tune_data out :
  clean_thesession_data tune_data = Some out ->
  Forall2 (fun d d' =>
    d' !! "dance" = d !! "type" /\ d !! "type" <> None /\
    d' !! "date" = None /\ d' !! "username" = None /\ d' !! "name" = None /\
    d' !! "type" = None /\
    (forall k, ~ In k ["date"; "username"; "name"; "type"; "dance"] -> d' !! k = d !! k))%string
    tune_data out.
Proof.
  unfold clean_thesession_data. intros H. apply mapM_Some_1 in H.
  eapply Forall2_impl; [exact H|]. intros d d' Hd.
  destruct (clean_setting_lookup d d' Hd) as [[ty [Ht Hdance]] Hrest].
  rewrite Hdance, Ht. split; [reflexivity|]. split; [discriminate|]. exact Hrest.
Qed.

(* ================================================================== *)
(** * The settings dict of build_non_user_data *)

Lemma Forall2_Forall_r_in {A B} (R : A -> B -> Prop) (Q : B -> Prop) l1 l2 :
  Forall2 R l1 l2 -> (forall x y, In x l1 -> R x y -> Q y) -> Forall Q l2.
Proof.
  induction 1 as [|x y l1 l2 Hxy _ IH]; intros HQ; constructor.
  - apply (HQ x y); [left; reflexivity|exact Hxy].
  - apply IH. intros x' y' Hx'. apply HQ. right. exact Hx'.
Qed.


Lemma Forall2_Exists_iff {A B} (R : A -> B -> Prop) (P : A -> Prop) (Q : B -> Prop) l1 l2 :
  Forall2 R l1 l2 -> (forall x y, R x y -> P x <-> Q y) -> (Exists P l1 <-> Exists Q l2).
Proof.
  intros H HPQ. induction H as [|x y l1 l2 Hxy _ IH]; [rewrite !Exists_nil; tauto|].
  rewrite !Exists_cons, (HPQ _ _ Hxy), IH. tauto.
Qed.

Lemma Exists_last {A} (P : A -> Prop) `{forall x, Decision (P x)} l :
  Exists P l -> exists pre x post, l = pre ++ x :: post /\ P x /\ Forall (fun y => ~ P y) post.
Proof.
  induction l as [|x rest IH]; intros Hl; [apply Exists_nil in Hl; contradiction|].
  destruct (decide (Exists P rest)) as [Hr|Hr].
  - destruct (IH Hr) as (pre & y & post & -> & Hy & Hpost).
    exists (x :: pre), y, post. split; [reflexivity|]. split; assumption.
  - apply Exists_cons in Hl as [Hx|Hx]; [|contradiction].
    exists [], x, rest. split; [reflexivity|]. split; [exact Hx|].
    apply List.Forall_forall. intros y Hy Py. apply Hr, List.Exists_exists. eauto.
Qed.

Lemma clean_setting_keeps d d' k :
  clean_setting d = Some d' -> ~ In k ["date"; "username"; "name"; "type"; "dance"]%string ->
  d' !! k = d !! k.
Proof. intros H. exact (proj2 (proj2 (proj2 (proj2 (proj2 (clean_setting_lookup d d' H))))) k). Qed.

Lemma setting_id_kept d d' :
  clean_setting d = Some d' -> d' !! "setting_id" = d !! "setting_id".
Proof. intros H. apply (clean_setting_keeps _ _ _ H). cbn [In]. intuition discriminate. Qed.

Section AssemblyFacts.

Variable contour_of : string -> string -> string.

Lemma generate_midi_contour_inv s c :
  generate_midi_contour contour_of s = Some c ->
  s !! "setting_id" = Some c.1 /\ s !! "meter" <> None /\ s !! "mode" <> None /\ s !! "abc" <> None.
Proof.
  unfold generate_midi_contour.
  destruct (s !! "meter") eqn:E1; cbn [mbind option_bind]; [|discriminate].
  destruct (s !! "mode") eqn:E2; cbn [mbind option_bind]; [|discriminate].
  destruct (s !! "abc") eqn:E3; cbn [mbind option_bind]; [|discriminate].
  destruct (s !! "setting_id") eqn:E4; cbn [mbind option_bind]; [|discriminate].
  intros H. injection H as <-. cbn [fst]. repeat split; congruence.
Qed.


Lemma index_setting_Some settings setting sid :
  setting !! "setting_id" = Some sid ->
  index_setting settings setting = Some (<[sid := delete "setting_id" setting]> settings).
Proof.
  intros H. unfold index_setting. rewrite H. cbn [mbind option_bind].
  rewrite lookup_insert_eq. cbn [mbind option_bind].
  unfold py_del. rewrite H. cbn [mbind option_bind]. rewrite insert_insert_eq. reflexivity.
Qed.

Lemma index_setting_inv settings setting r :
  index_setting settings setting = Some r ->
  exists sid, setting !! "setting_id" = Some sid /\ r = <[sid := delete "setting_id" setting]> settings.
Proof.
  destruct (setting !! "setting_id") as [sid|] eqn:H.
  - rewrite (index_setting_Some _ _ _ H). intros E. injection E as <-. eauto.
  - unfold index_setting. rewrite H. discriminate.
Qed.

Lemma index_settings_app settings l1 l2 :
  index_settings settings (l1 ++ l2) = index_settings settings l1 ≫= fun a => index_settings a l2.
Proof.
  revert settings. induction l1 as [|x l1 IH]; intros settings; [reflexivity|].
  cbn [index_settings app]. destruct (index_setting settings x); cbn [mbind option_bind];
    [apply IH|reflexivity].
Qed.


Lemma index_settings_keys settings l r k :
  index_settings settings l = Some r ->
  (r !! k <> None <-> settings !! k <> None \/ Exists (fun d => d !! "setting_id" = Some k) l).
Proof.
  revert settings. induction l as [|x l IH]; intros settings H.
  - cbn [index_settings] in H. injection H as <-. rewrite Exists_nil. tauto.
  - cbn [index_settings] in H. destruct (index_setting settings x) as [s1|] eqn:E; [|discriminate].
    cbn [mbind option_bind] in H. rewrite (IH _ H). apply index_setting_inv in E as [sid [Hsid ->]].
    rewrite Exists_cons. destruct (decide (sid = k)) as [<-|Hne].
    + rewrite lookup_insert_eq. split; intros _; [right; left; exact Hsid|left; discriminate].
    + rewrite lookup_insert_ne by exact Hne.
      assert (x !! "setting_id" <> Some k) by congruence. tauto.
Qed.

Lemma index_settings_other settings l r k :
  Forall (fun d => d !! "setting_id" <> Some k) l ->
  index_settings settings l = Some r -> r !! k = settings !! k.
Proof.
  revert settings. induction l as [|x l IH]; intros settings Hl H.
  - cbn [index_settings] in H. injection H as <-. reflexivity.
  - apply Forall_cons_iff in Hl as [Hx Hl].
    cbn [index_settings] in H. destruct (index_setting settings x) as [s1|] eqn:E; [|discriminate].
    cbn [mbind option_bind] in H. rewrite (IH _ Hl H). apply index_setting_inv in E as [sid [Hsid ->]].
    apply lookup_insert_ne. congruence.
Qed.

Lemma index_settings_last settings pre x post k r :
  x !! "setting_id" = Some k ->
  Forall (fun d => d !! "setting_id" <> Some k) post ->
  index_settings settings (pre ++ x :: post) = Some r ->
  r !! k = Some (delete "setting_id" x).
Proof.
  intros Hx Hpost H. rewrite index_settings_app in H.
  destruct (index_settings settings pre) as [a|]; cbn [mbind option_bind] in H; [|discriminate].
  cbn [index_settings] in H. rewrite (index_setting_Some _ _ _ Hx) in H. cbn [mbind option_bind] in H.
  rewrite (index_settings_other _ _ _ _ Hpost H). apply lookup_insert_eq.
Qed.

Lemma attach_contours_app settings l1 l2 :
  attach_contours settings (l1 ++ l2) = attach_contours settings l1 ≫= fun a => attach_contours a l2.
Proof.
  revert settings. induction l1 as [|x l1 IH]; intros settings; [reflexivity|].
  cbn [attach_contours app]. destruct (attach_contour settings x); cbn [mbind option_bind];
    [apply IH|reflexivity].
Qed.

Lemma attach_contour_lookup settings c r k :
  attach_contour settings c = Some r ->
  settings !! c.1 <> None /\
  r !! k = if decide (c.1 = k) then <["contour" := c.2]> <$> settings !! k else settings !! k.
Proof.
  unfold attach_contour. destruct (settings !! c.1) as [e|] eqn:E; cbn [mbind option_bind];
    [|discriminate].
  intros H. injection H as <-. split; [congruence|].
  destruct (decide (c.1 = k)) as [<-|Hne].
  - rewrite lookup_insert_eq, E. reflexivity.
  - apply lookup_insert_ne, Hne.
Qed.

Lemma attach_contours_keys settings cs r k :
  attach_contours settings cs = Some r -> (r !! k = None <-> settings !! k = None).
Proof.
  revert settings. induction cs as [|c cs IH]; intros settings H.
  - cbn [attach_contours] in H. injection H as <-. tauto.
  - cbn [attach_contours] in H. destruct (attach_contour settings c) as [s1|] eqn:E; [|discriminate].
    cbn [mbind option_bind] in H. rewrite (IH _ H).
    apply (attach_contour_lookup _ _ _ k) in E as [_ ->].
    destruct (decide (c.1 = k)); [|tauto].
    destruct (settings !! k); simpl; split; intros; congruence.
Qed.


Lemma attach_contours_other settings cs r k :
  Forall (fun c => c.1 <> k) cs -> attach_contours settings cs = Some r -> r !! k = settings !! k.
Proof.
  revert settings. induction cs as [|c cs IH]; intros settings Hcs H.
  - cbn [attach_contours] in H. injection H as <-. reflexivity.
  - apply Forall_cons_iff in Hcs as [Hc Hcs]. cbn [attach_contours] in H.
    destruct (attach_contour settings c) as [s1|] eqn:E; [|discriminate].
    cbn [mbind option_bind] in H. rewrite (IH _ Hcs H).
    apply (attach_contour_lookup _ _ _ k) in E as [_ ->].
    destruct (decide (c.1 = k)); [contradiction|reflexivity].
Qed.

Lemma attach_contours_shape settings cs r k :
  attach_contours settings cs = Some r ->
  r !! k = settings !! k \/ exists c, r !! k = <["contour" := c]> <$> settings !! k.
Proof.
  revert settings. induction cs as [|c cs IH]; intros settings H.
  - cbn [attach_contours] in H. injection H as <-. left; reflexivity.
  - cbn [attach_contours] in H. destruct (attach_contour settings c) as [s1|] eqn:E; [|discriminate].
    cbn [mbind option_bind] in H.
    apply (attach_contour_lookup _ _ _ k) in E as [_ Hs1].
    destruct (IH _ H) as [Hr|[c' Hr]]; rewrite Hr, Hs1; destruct (decide (c.1 = k)) as [_|_].
    + right. exists c.2. reflexivity.
    + left. reflexivity.
    + right. exists c'. destruct (settings !! k); simpl; [rewrite insert_insert_eq|]; reflexivity.
    + right. exists c'. reflexivity.
Qed.

Lemma attach_contours_last settings pre k c post r :
  Forall (fun c' => c'.1 <> k) post ->
  attach_contours settings (pre ++ (k, c) :: post) = Some r ->
  r !! k = <["contour" := c]> <$> settings !! k.
Proof.
  intros Hpost H. rewrite attach_contours_app in H.
  destruct (attach_contours settings pre) as [a|] eqn:Ea; cbn [mbind option_bind] in H; [|discriminate].
  cbn [attach_contours] in H.
  destruct (attach_contour a (k, c)) as [a1|] eqn:E1; cbn [mbind option_bind] in H; [|discriminate].
  rewrite (attach_contours_other _ _ _ _ Hpost H).
  apply (attach_contour_lookup _ _ _ k) in E1 as [_ ->]. cbn [fst snd].
  rewrite decide_True by reflexivity.
  destruct (attach_contours_shape _ _ _ k Ea) as [->|[c' ->]]; [reflexivity|].
  destruct (settings !! k); simpl; [rewrite insert_insert_eq|]; reflexivity.
Qed.

Lemma build_settings_inv td r :
  build_settings contour_of td = Some r ->
  exists cleaned contours settings,
    Forall2 (fun d d' => clean_setting d = Some d') td cleaned /\
    Forall2 (fun d' c => generate_midi_contour contour_of d' = Some c) cleaned contours /\
    index_settings ∅ cleaned = Some settings /\
    attach_contours settings contours = Some r.
Proof.
  unfold build_settings, clean_thesession_data.
  destruct (mapM clean_setting td) as [cleaned|] eqn:E1; cbn [mbind option_bind]; [|discriminate].
  destruct (mapM (generate_midi_contour contour_of) cleaned) as [contours|] eqn:E2;
    cbn [mbind option_bind]; [|discriminate].
  destruct (index_settings ∅ cleaned) as [settings|] eqn:E3; cbn [mbind option_bind]; [|discriminate].
  intros H. exists cleaned, contours, settings.
  split; [apply mapM_Some_1, E1|]. split; [apply mapM_Some_1, E2|]. split; assumption.
Qed.

Lemma build_settings_keys_aux td r k :
  build_settings contour_of td = Some r ->
  (r !! k <> None <-> Exists (fun d => d !! "setting_id" = Some k) td).
Proof.
  intros H. destruct (build_settings_inv _ _ H) as (cleaned & contours & settings & H1 & H2 & H3 & H4).
  pose proof (attach_contours_keys _ _ _ k H4) as Hk.
  assert (Hr : r !! k <> None <-> settings !! k <> None) by tauto. rewrite Hr.
  rewrite (index_settings_keys _ _ _ k H3), lookup_empty.
  rewrite (Forall2_Exists_iff _ (fun d => d !! "setting_id" = Some k)
             (fun d => d !! "setting_id" = Some k) _ _ H1).
  - intuition congruence.
  - intros d d' Hd. rewrite (setting_id_kept _ _ Hd). tauto.
Qed.

Lemma build_settings_last_aux td pre d post sid r :
  td = pre ++ d :: post -> d !! "setting_id" = Some sid ->
  Forall (fun e => e !! "setting_id" <> Some sid) post ->
  build_settings contour_of td = Some r ->
  exists d' c, clean_setting d = Some d' /\ generate_midi_contour contour_of d' = Some (sid, c) /\
    r !! sid = Some (<["contour" := c]> (delete "setting_id" d')).
Proof.
  intros -> Hd Hpost H.
  destruct (build_settings_inv _ _ H) as (cleaned & contours & settings & H1 & H2 & H3 & H4).
  apply Forall2_app_inv_l in H1 as (cpre & crest & _ & H1 & ->).
  apply Forall2_cons_inv_l in H1 as (d' & cpost & Hd' & Hcpost & ->).
  apply Forall2_app_inv_l in H2 as (kpre & krest & _ & H2 & ->).
  apply Forall2_cons_inv_l in H2 as (c0 & kpost & Hc0 & Hkpost & ->).
  assert (Hid : d' !! "setting_id" = Some sid) by (rewrite (setting_id_kept _ _ Hd'); exact Hd).
  destruct (generate_midi_contour_inv _ _ Hc0) as [Hc0id _].
  rewrite Hid in Hc0id. destruct c0 as [sid' c]. cbn [fst] in Hc0id. injection Hc0id as <-.
  exists d', c. split; [exact Hd'|]. split; [exact Hc0|].
  assert (Hcpost' : Forall (fun e => e !! "setting_id" <> Some sid) cpost).
  { (* the cleaned tail comes from [post] *)
    clear - Hpost Hcpost. revert cpost Hcpost.
    induction Hpost as [|e post He _ IH]; intros cpost Hcpost.
    - apply Forall2_nil_inv_l in Hcpost as ->. constructor.
    - apply Forall2_cons_inv_l in Hcpost as (e' & cpost' & He' & Hcpost & ->).
      constructor; [rewrite (setting_id_kept _ _ He'); exact He|exact (IH _ Hcpost)]. }
  assert (Hkpost' : Forall (fun c' => c'.1 <> sid) kpost).
  { apply (Forall2_Forall_r_in _ _ _ _ Hkpost). intros e c' He Hgen Heq.
    destruct (generate_midi_contour_inv _ _ Hgen) as [Hgid _]. rewrite Heq in Hgid.
    rewrite List.Forall_forall in Hcpost'. exact (Hcpost' e He Hgid). }
  rewrite (attach_contours_last _ _ _ _ _ _ Hkpost' H4).
  rewrite (index_settings_last _ _ _ _ _ _ Hid Hcpost' H3). reflexivity.
Qed.


(** The keys of the [settings] dict are exactly the setting_ids of the
    settings in the data file. *)
Theorem build_settings_keys td r sid :
  build_settings contour_of td = Some r ->
  (r !! sid <> None <-> Exists (fun d => d !! "setting_id" = Some sid) td).
Proof. intros H. exact (build_settings_keys_aux td r sid H). Qed.


(** Every entry of the [settings] dict has a [contour] and a [dance], and
    none keeps [setting_id], [date], [username], [name] or [type]: a
    setting without a contour cannot occur, since a failed contour ends the
    program. *)
Theorem build_settings_entries td r sid v :
  build_settings contour_of td = Some r -> r !! sid = Some v ->
  v !! "contour" <> None /\ v !! "dance" <> None /\ v !! "setting_id" = None /\
  v !! "date" = None /\ v !! "username" = None /\ v !! "name" = None /\ v !! "type" = None.
Proof.
  intros H Hv.
  assert (Hk : r !! sid <> None) by congruence.
  apply (build_settings_keys_aux _ _ sid H) in Hk.
  apply Exists_last in Hk as (pre & d & post & Htd & Hd & Hpost); [|intros x; apply _].
  destruct (build_settings_last_aux _ pre d post sid r Htd Hd Hpost H) as (d' & c & Hd' & _ & Hr).
  rewrite Hr in Hv. injection Hv as <-.
  destruct (clean_setting_lookup _ _ Hd') as [[ty [_ Hdance]] (H1 & H2 & H3 & H4 & _)].
  split; [rewrite lookup_insert_eq; discriminate|].
  split; [rewrite lookup_insert_ne, lookup_delete_ne, Hdance by discriminate; discriminate|].
  split; [rewrite lookup_insert_ne, lookup_delete_eq by discriminate; reflexivity|].
  rewrite !lookup_insert_ne, !lookup_delete_ne by discriminate. auto.
Qed.

End AssemblyFacts.

Lemma clean_thesession_data_raises_witness :
  clean_thesession_data [jig_setting; delete "username" jig_setting]%string = None.
Proof.
  apply (proj2 (clean_thesession_data_raises _)).
  apply Exists_cons_tl, Exists_cons_hd. right. left. vm_compute. reflexivity.
Defined.

Lemma clean_thesession_data_entries_witness :
  exists out, clean_thesession_data [jig_setting] = Some out /\
    Forall2 (fun d d' => d' !! "dance" = d !! "type")%string [jig_setting] out.
Proof.
  assert (H : clean_thesession_data [jig_setting] =
              Some [<["dance" := "jig"]> (delete "type" (delete "name" (delete "username"
                      (delete "date" jig_setting))))]%string) by (vm_compute; reflexivity).
  eexists. split; [exact H|].
  eapply Forall2_impl; [exact (clean_thesession_data_entries _ _ H)|].
  intros d d' Hd. exact (proj1 Hd).
Defined.


Lemma build_settings_keys_witness :
  build_settings abc_as_contour sample_tune_data = Some sample_settings /\
  (sample_settings !! "8" <> None <->
   Exists (fun d => d !! "setting_id" = Some "8") sample_tune_data)%string.
Proof.
  assert (H : build_settings abc_as_contour sample_tune_data = Some sample_settings)
    by (vm_compute; reflexivity).
  split; [exact H|]. exact (build_settings_keys abc_as_contour _ _ _ H).
Defined.


Lemma build_settings_entries_witness :
  build_settings abc_as_contour sample_tune_data = Some sample_settings /\
  exists v, sample_settings !! "7" = Some v /\ v !! "contour" <> None /\ v !! "name" = None.
Proof.
  assert (H : build_settings abc_as_contour sample_tune_data = Some sample_settings)
    by (vm_compute; reflexivity).
  split; [exact H|].
  destruct (sample_settings !! "7"%string) as [v|] eqn:Hv; [|vm_compute in Hv; discriminate].
  exists v. split; [reflexivity|].
  destruct (build_settings_entries abc_as_contour _ _ _ _ H Hv) as (Hc & _ & _ & _ & _ & Hn & _).
  split; assumption.
Defined.
